(** * iPixel MQTT bridge (mqtt.py): an executable model and its properties

    The bridge receives MQTT messages, turns them into commands for a local
    WebSocket server that drives an LED matrix, keeps the display attributes
    in a module-level dictionary and republishes them after every message.

    The development follows the layout of mqtt.py:
    - Python values as decoded by [json.loads], with [str], truthiness and
      subscripting;
    - the JSON decoder;
    - the module globals as one record, threaded through a state monad in
      which an exception keeps the globals as they were when it was raised;
    - the WebSocket helpers, the LED helpers, the MQTT helpers and the
      message callback;
    - what a run shows, and the properties.

    What is outside the program is kept to its interface.  The websocket
    library succeeds or raises as the network of the world says.  The MQTT
    client takes what it is given.  One callback runs at a time: the
    threads of the program are not interleaved. *)

From Stdlib Require Import String Ascii List ZArith NArith Bool Lia Arith.
From Stdlib Require Import DecimalString.
Import ListNotations.
Local Open Scope list_scope.
Local Open Scope string_scope.

(* ===================================================================== *)
(** ** Text *)
(* ===================================================================== *)

(** A Python [str] is carried as the string of the bytes of its UTF-8
    encoding.  Every constant of mqtt.py is ASCII; [upper], [lower] and
    [repr] act on the ASCII range and leave other bytes in place.  Python
    uppercases two characters from outside ASCII into it, dotless i and
    long s, to I and S: neither letter is in a constant that the program
    compares an uppercased text with. *)

Module Text.

Definition code (c : ascii) : N := N_of_ascii c.

Definition between (lo hi : N) (c : ascii) : bool :=
  ((lo <=? code c) && (code c <=? hi))%N.

Definition is_lower (c : ascii) : bool := between 97 122 c.
Definition is_upper (c : ascii) : bool := between 65 90 c.
Definition is_digit (c : ascii) : bool := between 48 57 c.

Definition upper_char (c : ascii) : ascii :=
  if is_lower c then ascii_of_N (code c - 32) else c.

Definition lower_char (c : ascii) : ascii :=
  if is_upper c then ascii_of_N (code c + 32) else c.

Fixpoint map (f : ascii -> ascii) (s : string) : string :=
  match s with
  | EmptyString => EmptyString
  | String c r => String (f c) (map f r)
  end.

(** [s.upper()] and [s.lower()] *)
Definition upper : string -> string := map upper_char.
Definition lower : string -> string := map lower_char.

(** [s.replace(c, <empty>)] for a one-character [c] *)
Fixpoint remove (x : ascii) (s : string) : string :=
  match s with
  | EmptyString => EmptyString
  | String c r => if Ascii.eqb c x then remove x r else String c (remove x r)
  end.

Fixpoint mem (x : ascii) (s : string) : bool :=
  match s with
  | EmptyString => false
  | String c r => Ascii.eqb c x || mem x r
  end.

(** [s.startswith(p)] *)
Definition startswith (p s : string) : bool := String.prefix p s.

(** [s[n:]] *)
Fixpoint drop (n : nat) (s : string) : string :=
  match n, s with
  | O, _ => s
  | S n', String _ r => drop n' r
  | S _, EmptyString => EmptyString
  end.

(** [x in (a, b, ...)] for strings *)
Fixpoint among (x : string) (l : list string) : bool :=
  match l with
  | [] => false
  | y :: r => String.eqb x y || among x r
  end.

Definition is_empty (s : string) : bool :=
  match s with EmptyString => true | _ => false end.

(** The first character of a non-empty text: its lead byte together with
    the continuation bytes (binary 10xxxxxx) that follow it. *)
Fixpoint continuation (s : string) : string :=
  match s with
  | String c r => if between 128 191 c then String c (continuation r) else EmptyString
  | EmptyString => EmptyString
  end.

Definition first_char (s : string) : option string :=
  match s with
  | EmptyString => None
  | String c r => Some (String c (continuation r))
  end.

(** [", ".join(l)] and the like *)
Fixpoint join (sep : string) (l : list string) : string :=
  match l with
  | [] => EmptyString
  | [x] => x
  | x :: r => x ++ sep ++ join sep r
  end.

(** Decimal text of an integer, as [str] prints an [int]. *)
Definition of_Z (z : Z) : string := NilZero.string_of_int (Z.to_int z).

Definition hex_digit (n : N) : ascii :=
  if (n <? 10)%N then ascii_of_N (48 + n) else ascii_of_N (87 + n).

(** Source text of a JSON document: apostrophes stand for the double
    quotes of the document. *)
Definition json_text : string -> string :=
  map (fun c => if Ascii.eqb c "'"%char then "034"%char else c).

End Text.

(* ===================================================================== *)
(** ** Python values *)
(* ===================================================================== *)

(** A float is kept as the text of its literal ([FLit]) or as one of the
    three constants the decoder accepts.  Python holds the nearest binary64
    instead: printing and truthiness of a float agree with Python when the
    literal is already in Python's printed form. *)
Inductive pyfloat : Type :=
| FNaN
| FInf (negative : bool)
| FLit (text : string).

Unset Elimination Schemes.
Inductive pyval : Type :=
| PNone
| PBool (b : bool)
| PInt (z : Z)
| PFloat (f : pyfloat)
| PStr (s : string)
| PList (l : list pyval)
| PDict (d : list (string * pyval)).
Set Elimination Schemes.

(** A [dict] with string keys: the items in insertion order, one per key. *)
Definition dict : Type := list (string * pyval).

Module Dict.

Fixpoint get (k : string) (d : dict) : option pyval :=
  match d with
  | [] => None
  | (k', v) :: r => if String.eqb k k' then Some v else get k r
  end.

(** [k in d] *)
Definition has (k : string) (d : dict) : bool :=
  match get k d with Some _ => true | None => false end.

(** [d[k] = v]: in place when the key is there, else as a new last item *)
Fixpoint set (k : string) (v : pyval) (d : dict) : dict :=
  match d with
  | [] => [(k, v)]
  | (k', v') :: r =>
      if String.eqb k k' then (k', v) :: r else (k', v') :: set k v r
  end.

Definition keys (d : dict) : list string := List.map fst d.

(** [dict(pairs)] *)
Definition of_pairs (l : list (string * pyval)) : dict :=
  fold_left (fun d kv => set (fst kv) (snd kv) d) l [].

End Dict.

Module Py.

Definition float_repr (f : pyfloat) : string :=
  match f with
  | FNaN => "nan"
  | FInf false => "inf"
  | FInf true => "-inf"
  | FLit t => t
  end.

(** Digits of the mantissa: the literal up to its exponent mark. *)
Fixpoint mantissa_nonzero (s : string) : bool :=
  match s with
  | EmptyString => false
  | String c r =>
      if Ascii.eqb c "e"%char || Ascii.eqb c "E"%char then false
      else Text.between 49 57 c || mantissa_nonzero r
  end.

Definition float_truthy (f : pyfloat) : bool :=
  match f with
  | FLit t => mantissa_nonzero t
  | _ => true
  end.

(** Truth value of an object in an [if] or [and]. *)
Definition truthy (v : pyval) : bool :=
  match v with
  | PNone => false
  | PBool b => b
  | PInt z => negb (Z.eqb z 0)
  | PFloat f => float_truthy f
  | PStr s => negb (Text.is_empty s)
  | PList l => match l with [] => false | _ => true end
  | PDict d => match d with [] => false | _ => true end
  end.

(** [repr] of a [str]: single quotes unless the text has an apostrophe and
    no double quote; backslash, the quote, tab, newline and return take a
    backslash; other control characters are written [\xhh]. *)
Definition quote_of (s : string) : ascii :=
  if Text.mem "'"%char s && negb (Text.mem "034"%char s)
  then "034"%char else "'"%char.

Definition escape_char (q c : ascii) : string :=
  if Ascii.eqb c q || Ascii.eqb c "\"%char then String "\"%char (String c EmptyString)
  else if Ascii.eqb c "009"%char then "\t"
  else if Ascii.eqb c "010"%char then "\n"
  else if Ascii.eqb c "013"%char then "\r"
  else if (Text.code c <? 32)%N || (Text.code c =? 127)%N then
    String "\"%char (String "x"%char
      (String (Text.hex_digit (Text.code c / 16))
         (String (Text.hex_digit (Text.code c mod 16)) EmptyString)))
  else String c EmptyString.

Fixpoint escape (q : ascii) (s : string) : string :=
  match s with
  | EmptyString => EmptyString
  | String c r => escape_char q c ++ escape q r
  end.

Definition str_repr (s : string) : string :=
  let q := quote_of s in
  String q (escape q s ++ String q EmptyString).

(** [repr(v)] *)
Fixpoint repr (v : pyval) : string :=
  match v with
  | PNone => "None"
  | PBool true => "True"
  | PBool false => "False"
  | PInt z => Text.of_Z z
  | PFloat f => float_repr f
  | PStr s => str_repr s
  | PList l => "[" ++ Text.join ", " (List.map repr l) ++ "]"
  | PDict d =>
      "{" ++ Text.join ", "
               (List.map (fun kv => str_repr (fst kv) ++ ": " ++ repr (snd kv)) d)
          ++ "}"
  end.

(** [str(v)], also what an f-string puts for [{v}] *)
Definition str (v : pyval) : string :=
  match v with
  | PStr s => s
  | _ => repr v
  end.

(** [v == s] for a string constant [s] *)
Definition eq_str (v : pyval) (s : string) : bool :=
  match v with
  | PStr t => String.eqb t s
  | _ => false
  end.

(** [v is None] *)
Definition is_none (v : pyval) : bool :=
  match v with PNone => true | _ => false end.

End Py.


(* ===================================================================== *)
(** ** The JSON decoder *)
(* ===================================================================== *)

(** [json.loads] on a text, after CPython's [json.decoder] and
    [json.scanner]: leading and trailing blanks, one value, nothing after
    it.  The recursive descent runs on fuel; [Json.loads] gives it more than
    any text can use ([JsonFacts.loads_never_starved]).

    CPython's own limits are not modelled: it raises on an integer literal
    longer than its digit limit and on nesting deeper than its recursion
    limit, where this decoder decodes. *)

Module Json.

Inductive parse (A : Type) : Type :=
| Parsed (a : A) (rest : string)
| Failed
| Starved.
Arguments Parsed {A} a rest.
Arguments Failed {A}.
Arguments Starved {A}.

Definition dquote : ascii := "034"%char.

Definition is_ws (c : ascii) : bool :=
  Ascii.eqb c " "%char || Ascii.eqb c "009"%char
  || Ascii.eqb c "010"%char || Ascii.eqb c "013"%char.

Fixpoint skip_ws (s : string) : string :=
  match s with
  | String c r => if is_ws c then skip_ws r else s
  | EmptyString => s
  end.

(** *** Numbers

    An optional minus, then 0 or a digit 1-9 with any digits after it; then
    optionally a point and one or more digits; then optionally e or E, an
    optional sign and one or more digits.  Each optional group is taken
    whole or not at all. *)

Fixpoint digits (s : string) : string * string :=
  match s with
  | String c r =>
      if Text.is_digit c
      then let (d, t) := digits r in (String c d, t)
      else (EmptyString, s)
  | EmptyString => (EmptyString, s)
  end.

Fixpoint nat_value (acc : Z) (s : string) : Z :=
  match s with
  | EmptyString => acc
  | String c r => nat_value (10 * acc + (Z.of_N (Text.code c) - 48)) r
  end.

(** [int(text)] for a matched integer part *)
Definition int_value (s : string) : Z :=
  match s with
  | String c r => if Ascii.eqb c "-"%char then (- nat_value 0 r)%Z else nat_value 0 s
  | EmptyString => 0%Z
  end.

Definition unsigned_part (s : string) : option (string * string) :=
  match s with
  | String c r =>
      if Ascii.eqb c "0"%char then Some ("0", r)
      else if Text.between 49 57 c
           then let (d, t) := digits r in Some (String c d, t)
           else None
  | EmptyString => None
  end.

Definition int_part (s : string) : option (string * string) :=
  match s with
  | String c r =>
      if Ascii.eqb c "-"%char
      then match unsigned_part r with
           | Some (i, t) => Some (String c i, t)
           | None => None
           end
      else unsigned_part s
  | EmptyString => None
  end.

Definition frac_part (s : string) : option (string * string) :=
  match s with
  | String c r =>
      if Ascii.eqb c "."%char
      then let (d, t) := digits r in
           if Text.is_empty d then None else Some (String c d, t)
      else None
  | EmptyString => None
  end.

Definition sign_part (s : string) : string * string :=
  match s with
  | String c r =>
      if Ascii.eqb c "+"%char || Ascii.eqb c "-"%char
      then (String c EmptyString, r) else (EmptyString, s)
  | EmptyString => (EmptyString, s)
  end.

Definition exp_part (s : string) : option (string * string) :=
  match s with
  | String c r =>
      if Ascii.eqb c "e"%char || Ascii.eqb c "E"%char
      then let (sg, r1) := sign_part r in
           let (d, t) := digits r1 in
           if Text.is_empty d then None else Some (String c (sg ++ d), t)
      else None
  | EmptyString => None
  end.

Definition optional (p : string -> option (string * string)) (s : string)
  : string * string :=
  match p s with
  | Some x => x
  | None => (EmptyString, s)
  end.

Definition number (s : string) : option (pyval * string) :=
  match int_part s with
  | None => None
  | Some (i, r) =>
      let (f, r1) := optional frac_part r in
      let (e, r2) := optional exp_part r1 in
      if Text.is_empty f && Text.is_empty e
      then Some (PInt (int_value i), r2)
      else Some (PFloat (FLit (i ++ f ++ e)), r2)
  end.

(** *** Strings *)

(** What one step of the string scanner yields: a character of the text, or
    the code unit of a [\uXXXX] escape. *)
Inductive item : Type :=
| Raw (c : ascii)
| Esc (unit : N).

Definition hex_value (c : ascii) : option N :=
  if Text.is_digit c then Some (Text.code c - 48)%N
  else if Text.between 97 102 c then Some (Text.code c - 87)%N
  else if Text.between 65 70 c then Some (Text.code c - 55)%N
  else None.

Definition hex4 (a b c d : ascii) : option N :=
  match hex_value a, hex_value b, hex_value c, hex_value d with
  | Some x, Some y, Some z, Some t => Some (((x * 16 + y) * 16 + z) * 16 + t)%N
  | _, _, _, _ => None
  end.

(** The table [BACKSLASH] of the decoder *)
Definition backslash (c : ascii) : option ascii :=
  if Ascii.eqb c dquote then Some dquote
  else if Ascii.eqb c "\"%char then Some "\"%char
  else if Ascii.eqb c "/"%char then Some "/"%char
  else if Ascii.eqb c "b"%char then Some "008"%char
  else if Ascii.eqb c "f"%char then Some "012"%char
  else if Ascii.eqb c "n"%char then Some "010"%char
  else if Ascii.eqb c "r"%char then Some "013"%char
  else if Ascii.eqb c "t"%char then Some "009"%char
  else None.

Definition push (i : item) (x : option (list item * string))
  : option (list item * string) :=
  match x with
  | Some (l, r) => Some (i :: l, r)
  | None => None
  end.

(** From just after the opening quote to just after the closing one;
    strict: a control character inside the string is an error. *)
Fixpoint scan_items (s : string) : option (list item * string) :=
  match s with
  | EmptyString => None
  | String c r =>
      if Ascii.eqb c dquote then Some ([], r)
      else if Ascii.eqb c "\"%char then
        match r with
        | EmptyString => None
        | String e r1 =>
            if Ascii.eqb e "u"%char then
              match r1 with
              | String a (String b (String x (String y r2))) =>
                  match hex4 a b x y with
                  | Some n => push (Esc n) (scan_items r2)
                  | None => None
                  end
              | _ => None
              end
            else
              match backslash e with
              | Some ch => push (Raw ch) (scan_items r1)
              | None => None
              end
        end
      else if (Text.code c <? 32)%N then None
      else push (Raw c) (scan_items r)
  end.

Definition byte (n : N) : string := String (ascii_of_N n) EmptyString.

(** [chr(n)], in UTF-8 (a lone surrogate takes the three-byte form) *)
Definition utf8 (n : N) : string :=
  (if n <? 128 then byte n
   else if n <? 2048 then byte (192 + n / 64) ++ byte (128 + n mod 64)
   else if n <? 65536 then
     byte (224 + n / 4096) ++ byte (128 + (n / 64) mod 64) ++ byte (128 + n mod 64)
   else
     byte (240 + n / 262144) ++ byte (128 + (n / 4096) mod 64)
       ++ byte (128 + (n / 64) mod 64) ++ byte (128 + n mod 64))%N.

Definition is_high (n : N) : bool := ((55296 <=? n) && (n <=? 56319))%N.
Definition is_low (n : N) : bool := ((56320 <=? n) && (n <=? 57343))%N.

(** A high surrogate escape directly followed by a low one is one
    character. *)
Fixpoint assemble (l : list item) : string :=
  match l with
  | [] => EmptyString
  | Raw c :: r => String c (assemble r)
  | Esc hi :: r =>
      match r with
      | Esc lo :: r' =>
          if is_high hi && is_low lo
          then utf8 (65536 + ((hi - 55296) * 1024 + (lo - 56320)))%N ++ assemble r'
          else utf8 hi ++ assemble r
      | _ => utf8 hi ++ assemble r
      end
  end.

Definition scanstring (s : string) : option (string * string) :=
  match scan_items s with
  | Some (l, r) => Some (assemble l, r)
  | None => None
  end.

(** *** Values *)

Definition literal (word : string) (v : pyval) (s : string) : option (pyval * string) :=
  if String.prefix word s then Some (v, Text.drop (String.length word) s) else None.

Definition first_of {A : Type} (a b : option A) : option A :=
  match a with Some _ => a | None => b end.

(** The alternatives of [scan_once] that open no container. *)
Definition scalar (s : string) : option (pyval * string) :=
  first_of (literal "null" PNone s)
  (first_of (literal "true" (PBool true) s)
  (first_of (literal "false" (PBool false) s)
  (first_of (number s)
  (first_of (literal "NaN" (PFloat FNaN) s)
  (first_of (literal "Infinity" (PFloat (FInf false)) s)
            (literal "-Infinity" (PFloat (FInf true)) s)))))).

Definition cons_parsed {A : Type} (a : A) (p : parse (list A)) : parse (list A) :=
  match p with
  | Parsed l r => Parsed (a :: l) r
  | Failed => Failed
  | Starved => Starved
  end.

Fixpoint scan_once (fuel : nat) (s : string) : parse pyval :=
  match fuel with
  | O => Starved
  | S n =>
      match s with
      | EmptyString => Failed
      | String c r =>
          if Ascii.eqb c dquote then
            match scanstring r with
            | Some (t, r') => Parsed (PStr t) r'
            | None => Failed
            end
          else if Ascii.eqb c "{"%char then
            match skip_ws r with
            | String c1 r1 =>
                if Ascii.eqb c1 "}"%char then Parsed (PDict []) r1
                else if Ascii.eqb c1 dquote then
                  match members n r1 with
                  | Parsed l r2 => Parsed (PDict (Dict.of_pairs l)) r2
                  | Failed => Failed
                  | Starved => Starved
                  end
                else Failed
            | EmptyString => Failed
            end
          else if Ascii.eqb c "["%char then
            match skip_ws r with
            | String c1 r1 =>
                if Ascii.eqb c1 "]"%char then Parsed (PList []) r1
                else
                  match elements n (String c1 r1) with
                  | Parsed l r2 => Parsed (PList l) r2
                  | Failed => Failed
                  | Starved => Starved
                  end
            | EmptyString => Failed
            end
          else
            match scalar s with
            | Some (v, r') => Parsed v r'
            | None => Failed
            end
      end
  end

(** [elements]: from the start of a value to just after the closing
    bracket of the array. *)
with elements (fuel : nat) (s : string) : parse (list pyval) :=
  match fuel with
  | O => Starved
  | S n =>
      match scan_once n s with
      | Parsed v r =>
          match skip_ws r with
          | String c r1 =>
              if Ascii.eqb c "]"%char then Parsed [v] r1
              else if Ascii.eqb c ","%char then cons_parsed v (elements n (skip_ws r1))
              else Failed
          | EmptyString => Failed
          end
      | Failed => Failed
      | Starved => Starved
      end
  end

(** [members]: from just after the opening quote of a key to just after
    the closing brace of the object. *)
with members (fuel : nat) (s : string) : parse (list (string * pyval)) :=
  match fuel with
  | O => Starved
  | S n =>
      match scanstring s with
      | None => Failed
      | Some (k, r) =>
          match skip_ws r with
          | String c r1 =>
              if Ascii.eqb c ":"%char then
                match scan_once n (skip_ws r1) with
                | Parsed v r2 =>
                    match skip_ws r2 with
                    | String c2 r3 =>
                        if Ascii.eqb c2 "}"%char then Parsed [(k, v)] r3
                        else if Ascii.eqb c2 ","%char then
                          match skip_ws r3 with
                          | String c3 r4 =>
                              if Ascii.eqb c3 dquote
                              then cons_parsed (k, v) (members n r4)
                              else Failed
                          | EmptyString => Failed
                          end
                        else Failed
                    | EmptyString => Failed
                    end
                | Failed => Failed
                | Starved => Starved
                end
              else Failed
          | EmptyString => Failed
          end
      end
  end.

(** [JSONDecoder.decode]: one value between blanks, and the end of text. *)
Definition decode (fuel : nat) (s : string) : parse pyval :=
  match scan_once fuel (skip_ws s) with
  | Parsed v r => if Text.is_empty (skip_ws r) then Parsed v r else Failed
  | Failed => Failed
  | Starved => Starved
  end.

Definition fuel_for (s : string) : nat := 2 * String.length s + 1.

(** [json.loads(s)]: [None] when it raises. *)
Definition loads (s : string) : option pyval :=
  match decode (fuel_for s) s with
  | Parsed v _ => Some v
  | _ => None
  end.

End Json.


(* ===================================================================== *)
(** ** Exceptions and subscripting *)
(* ===================================================================== *)

Inductive exn : Type :=
| AttributeError
| KeyError
| IndexError
| TypeError
| TransportError.   (* whatever the websocket library raises *)

Inductive result (A : Type) : Type :=
| Ok (a : A)
| Raise (e : exn).
Arguments Ok {A} a.
Arguments Raise {A} e.

Module Obj.

(** [v.get(k)]: only a dict has the method. *)
Definition get (v : pyval) (k : string) : result pyval :=
  match v with
  | PDict d => Ok (match Dict.get k d with Some x => x | None => PNone end)
  | _ => Raise AttributeError
  end.

(** [v[k]] for a string [k] *)
Definition item (v : pyval) (k : string) : result pyval :=
  match v with
  | PDict d => match Dict.get k d with Some x => Ok x | None => Raise KeyError end
  | _ => Raise TypeError
  end.

(** [v[0]] *)
Definition first (v : pyval) : result pyval :=
  match v with
  | PList (x :: _) => Ok x
  | PList [] => Raise IndexError
  | PStr s => match Text.first_char s with Some c => Ok (PStr c) | None => Raise IndexError end
  | PDict _ => Raise KeyError
  | _ => Raise TypeError
  end.

(** [v.startswith(p)]: only a str has the method. *)
Definition startswith (v : pyval) (p : string) : result bool :=
  match v with
  | PStr s => Ok (Text.startswith p s)
  | _ => Raise AttributeError
  end.

(** [v[n:]] for a str [v] *)
Definition from (n : nat) (v : pyval) : pyval :=
  match v with
  | PStr s => PStr (Text.drop n s)
  | _ => v
  end.

End Obj.

(* ===================================================================== *)
(** ** The globals, the outside world and the monad *)
(* ===================================================================== *)

(** The lines the program prints, by the statement that prints them. *)
Inductive log : Type :=
| WsConnected
| WsConnectFailed
| WsCannotSend
| WsSentText (text : pyval)
| WsSentCommand (cmd params : pyval)
| WsSendFailed (e : exn)
| MqttSet (key payload : string)
| MqttProcessing (data : pyval)
| MqttDetected (cmd : pyval)
| MqttDisplayOn
| MqttDisplayOff
| MqttExtracted (text : pyval)
| MqttText (text : pyval)
| MqttUpdated (key : string) (v : pyval)
| MqttSending (params : list pyval)
| MqttReceived (topic payload : string)
| MqttConnected.

(** What [client.publish] is given as payload. *)
Inductive mqtt_payload : Type :=
| Rendered (s : string)      (* str(v) *)
| Document (d : dict)        (* json.dumps(current_states) *)
| Given (v : pyval).         (* last_text as it is *)

(** What the program does to the outside, in order.  [EnsureServer] and
    [WsSend] mark the entry of the two session operations; [Probe], [Connect]
    and [Frame] are the calls into the websocket library with their
    outcome: the ping of [ws_connect], the opening of a new socket, and the
    transmission of a command object by [ws_send].  [ReceiveThread] is the
    start of the thread that prints what the socket receives. *)
Inductive event : Type :=
| Printed (line : log)
| EnsureServer
| WsSend (payload : pyval)
| Probe (sock : nat) (ok : bool)
| Close (sock : nat)
| Connect (sock : nat) (ok : bool)
| ReceiveThread (sock : nat)
| Spawn
| Frame (sock : nat) (payload : pyval) (ok : bool)
| Subscribe (topic : string)
| Publish (topic : string) (payload : mqtt_payload) (retain : bool).

(** The module globals [current_states], [last_text] and [ws], and the
    outside: [net] tells whether the n-th call into the websocket library
    succeeds, [clock] counts these calls, [sockets] counts the WebSocket
    objects created and [trace] collects the events, oldest first. *)
Record World : Type := mkWorld {
  current_states : dict;
  last_text : pyval;
  ws : option nat;
  sockets : nat;
  net : nat -> bool;
  clock : nat;
  trace : list event
}.

Definition M (A : Type) : Type := World -> result A * World.

Definition ret {A : Type} (a : A) : M A := fun w => (Ok a, w).

Definition bind {A B : Type} (m : M A) (k : A -> M B) : M B :=
  fun w =>
    match m w with
    | (Ok a, w') => k a w'
    | (Raise e, w') => (Raise e, w')
    end.

Definition raise {A : Type} (e : exn) : M A := fun w => (Raise e, w).

(** [try: m  except Exception as e: h e] *)
Definition try_except {A : Type} (m : M A) (h : exn -> M A) : M A :=
  fun w =>
    match m w with
    | (Ok a, w') => (Ok a, w')
    | (Raise e, w') => h e w'
    end.

Definition lift {A : Type} (r : result A) : M A := fun w => (r, w).

Declare Scope py_scope.
Delimit Scope py_scope with py.
Notation "x <- c ;; k" := (bind c (fun x => k))
  (at level 61, c at next level, right associativity) : py_scope.
Notation "c ;; k" := (bind c (fun _ => k))
  (at level 61, right associativity) : py_scope.
Local Open Scope py_scope.

Definition with_states (d : dict) (w : World) : World :=
  mkWorld d (last_text w) (ws w) (sockets w) (net w) (clock w) (trace w).
Definition with_last_text (v : pyval) (w : World) : World :=
  mkWorld (current_states w) v (ws w) (sockets w) (net w) (clock w) (trace w).
Definition with_ws (h : option nat) (w : World) : World :=
  mkWorld (current_states w) (last_text w) h (sockets w) (net w) (clock w) (trace w).
Definition with_event (e : event) (w : World) : World :=
  mkWorld (current_states w) (last_text w) (ws w) (sockets w) (net w) (clock w)
          (trace w ++ [e])%list.

Definition get_states : M dict := fun w => (Ok (current_states w), w).
Definition set_states (d : dict) : M unit := fun w => (Ok tt, with_states d w).
Definition get_last_text : M pyval := fun w => (Ok (last_text w), w).
Definition set_last_text (v : pyval) : M unit := fun w => (Ok tt, with_last_text v w).
Definition get_ws : M (option nat) := fun w => (Ok (ws w), w).
Definition set_ws (h : option nat) : M unit := fun w => (Ok tt, with_ws h w).
Definition emit (e : event) : M unit := fun w => (Ok tt, with_event e w).
Definition print (l : log) : M unit := emit (Printed l).

(** [websocket.WebSocket()]: a new object *)
Definition new_socket : M nat :=
  fun w => (Ok (sockets w),
            mkWorld (current_states w) (last_text w) (ws w) (S (sockets w))
                    (net w) (clock w) (trace w)).

(** One call into the websocket library: its outcome, [true] when it
    returns and [false] when it raises. *)
Definition attempt : M bool :=
  fun w => (Ok (net w (clock w)),
            mkWorld (current_states w) (last_text w) (ws w) (sockets w)
                    (net w) (S (clock w)) (trace w)).

Fixpoint for_each {A : Type} (l : list A) (body : A -> M unit) : M unit :=
  match l with
  | [] => ret tt
  | x :: r => body x ;; for_each r body
  end.

(* ===================================================================== *)
(** ** WebSocket helpers *)
(* ===================================================================== *)

(** The server command is started in a shell, then two seconds pass. *)
Definition start_server_once : M unit := emit Spawn.

(** The second [try] of [ws_connect]: a new socket, connected or dropped. *)
Definition ws_open : M (option nat) :=
  s <- new_socket ;;
  set_ws (Some s) ;;
  ok <- attempt ;;
  emit (Connect s ok) ;;
  if ok then
    print WsConnected ;;
    emit (ReceiveThread s) ;;
    ret (Some s)
  else
    print WsConnectFailed ;;
    set_ws None ;;
    ret None.

(** A socket in hand is probed with a ping first; when the probe fails it
    is closed, whatever [close] does, and a new one is opened. *)
Definition ws_connect : M (option nat) :=
  h <- get_ws ;;
  match h with
  | Some s =>
      ok <- attempt ;;
      emit (Probe s ok) ;;
      if ok then ret (Some s)
      else
        emit (Close s) ;;
        set_ws None ;;
        ws_open
  | None => ws_open
  end.

Definition ensure_server : M unit :=
  emit EnsureServer ;;
  h <- ws_connect ;;
  match h with
  | Some _ => ret tt
  | None =>
      start_server_once ;;
      ws_connect ;;
      ret tt
  end.

(** The whole body is in one [try]: the transmission can raise, and so can
    the two prints after it when the payload has no [get] or no first
    param. *)
Definition ws_send (payload : pyval) : M unit :=
  emit (WsSend payload) ;;
  try_except
    (h <- get_ws ;;
     match h with
     | None => ws_connect ;; ret tt
     | Some _ => ret tt
     end ;;
     h' <- get_ws ;;
     match h' with
     | None => print WsCannotSend
     | Some s =>
         ok <- attempt ;;
         emit (Frame s payload ok) ;;
         if ok then
           cmd <- lift (Obj.get payload "command") ;;
           if Py.eq_str cmd "send_text" then
             ps <- lift (Obj.item payload "params") ;;
             t <- lift (Obj.first ps) ;;
             print (WsSentText t)
           else
             ps <- lift (Obj.get payload "params") ;;
             print (WsSentCommand cmd ps)
         else raise TransportError
     end)
    (fun e => print (WsSendFailed e)).

(* ===================================================================== *)
(** ** LED helpers *)
(* ===================================================================== *)

Definition command (name : string) (params : list pyval) : pyval :=
  PDict [("command", PStr name); ("params", PList params)].

Definition clear_generated_texts : M unit := ws_send (command "clear" []).
Definition send_led_off : M unit := ws_send (command "led_off" []).
Definition send_led_on : M unit := ws_send (command "led_on" []).

(** The entries of the [for] loops that append [k=value] to the params. *)
Definition param_keys : list string :=
  ["color"; "speed"; "animation"; "font"; "matrix_height"].

Definition key_value (k : string) (v : pyval) : pyval := PStr (k ++ "=" ++ Py.str v).

(** [kwargs] is the dict of the keyword arguments. *)
Definition send_text_to_led (text : pyval) (kwargs : dict) : M unit :=
  if negb (Py.truthy text) then ret tt
  else
    ws_send
      (command "send_text"
         (fold_left
            (fun params k =>
               match Dict.get k kwargs with
               | Some v => if Py.is_none v then params else (params ++ [key_value k v])%list
               | None => params
               end)
            param_keys [text])).

(* ===================================================================== *)
(** ** MQTT helpers *)
(* ===================================================================== *)

Definition DEFAULTS : dict :=
  [ ("power", PBool false);
    ("brightness", PInt 80);
    ("speed", PInt 75);
    ("animation", PInt 1);
    ("color", PStr "ffffff");
    ("font", PStr "gnufont");
    ("matrix_height", PInt 16);
    ("font_size", PNone);
    ("font_offset_x", PInt 0);
    ("font_offset_y", PInt 0) ].

Fixpoint lookup (k : string) (l : list (string * string)) : option string :=
  match l with
  | [] => None
  | (k', t) :: r => if String.eqb k k' then Some t else lookup k r
  end.

Section Bridge.

(** The device address of the environment. *)
Variable DEVICE_MAC : string.

Definition DEVICE_ID_SAFE : string := Text.lower (Text.remove ":"%char DEVICE_MAC).
Definition BASE_TOPIC : string := "ipixel/" ++ DEVICE_ID_SAFE.
Definition CMD_TOPIC : string := BASE_TOPIC ++ "/set".
Definition STATE_TOPIC : string := BASE_TOPIC ++ "/state".
Definition LAST_TEXT_TOPIC : string := BASE_TOPIC ++ "/last_text".

Definition topic_names : list string :=
  [ "power"; "brightness"; "speed"; "animation"; "color"; "font";
    "matrix_height"; "font_size"; "font_offset_x"; "font_offset_y";
    "send_text"; "clear" ].

Definition TOPICS : list (string * string) :=
  List.map (fun k => (k, BASE_TOPIC ++ "/" ++ k)) topic_names.

(** [client.publish(topic, payload, retain=...)]: the message is handed to
    the MQTT client, which is taken to accept it. *)
Definition publish (topic : string) (payload : mqtt_payload) (retain : bool) : M unit :=
  emit (Publish topic payload retain).

Definition publish_states : M unit :=
  cs <- get_states ;;
  for_each cs
    (fun kv =>
       match lookup (fst kv) TOPICS with
       | Some t =>
           if Text.is_empty t then ret tt
           else publish (t ++ "/state") (Rendered (Py.str (snd kv))) true
       | None => ret tt
       end) ;;
  cs' <- get_states ;;
  publish STATE_TOPIC (Document cs') true ;;
  lt <- get_last_text ;;
  publish LAST_TEXT_TOPIC (Given lt) true.

(** [data = json.loads(payload)], or the payload itself when that raises *)
Definition parse_payload (payload : string) : pyval :=
  match Json.loads payload with
  | Some v => v
  | None => PStr payload
  end.

(** [current_states[k] = v] *)
Definition store (k : string) (v : pyval) : M unit :=
  cs <- get_states ;;
  set_states (Dict.set k v cs).

(** The params of the flat dialect after the text: for each key of
    [param_keys], the value of the message unless absent or null, else the
    stored one unless absent or null. *)
Definition flat_params (data cs : dict) (text : pyval) : list pyval :=
  fold_left
    (fun params k =>
       match Dict.get k data with
       | Some v =>
           if negb (Py.is_none v) then (params ++ [key_value k v])%list
           else
             match Dict.get k cs with
             | Some v' => if Py.is_none v' then params else (params ++ [key_value k v'])%list
             | None => params
             end
       | None =>
           match Dict.get k cs with
           | Some v' => if Py.is_none v' then params else (params ++ [key_value k v'])%list
           | None => params
           end
       end)
    param_keys [text].

(** The branch for a dict with [command] and [params]. *)
Definition structured (data : pyval) (cmd params : pyval) : M unit :=
  print (MqttDetected cmd) ;;
  if Py.eq_str cmd "led_on" then
    send_led_on ;;
    print MqttDisplayOn
  else if Py.eq_str cmd "led_off" then
    send_led_off ;;
    print MqttDisplayOff
  else if Py.eq_str cmd "send_text" && Py.truthy params then
    text_param <- lift (Obj.first params) ;;
    prefixed <- lift (Obj.startswith text_param "text=") ;;
    (if prefixed : bool then set_last_text (Obj.from 5 text_param)
     else set_last_text text_param) ;;
    lt <- get_last_text ;;
    print (MqttExtracted lt) ;;
    ensure_server ;;
    ws_send data
  else ret tt.

(** The body of the loop that updates all provided states. *)
Definition update (kv : string * pyval) : M unit :=
  cs <- get_states ;;
  if Dict.has (fst kv) cs then
    store (fst kv) (snd kv) ;;
    print (MqttUpdated (fst kv) (snd kv))
  else ret tt.

(** The branch for a dict with [send_text]. *)
Definition flat (d : dict) (text : pyval) : M unit :=
  set_last_text text ;;
  print (MqttText text) ;;
  for_each d update ;;
  lt <- get_last_text ;;
  cs <- get_states ;;
  let params := flat_params d cs lt in
  print (MqttSending params) ;;
  ensure_server ;;
  ws_send (command "send_text" params).

(** The [elif] branches of [handle_set_payload] for the individual
    topics. *)
Definition individual (key : string) (data : pyval) : M unit :=
  if String.eqb key "send_text" then
    set_last_text data ;;
    cs <- get_states ;;
    if Py.truthy (match Dict.get "power" cs with Some v => v | None => PNone end) then
      ensure_server ;;
      lt <- get_last_text ;;
      ws_send (command "send_text" [lt])
    else ret tt
  else if String.eqb key "power" then
    store "power" (PBool (Text.among (Text.upper (Py.str data)) ["ON"; "1"; "TRUE"])) ;;
    ensure_server ;;
    power <- (cs <- get_states ;; lift (Obj.item (PDict cs) "power")) ;;
    if Py.truthy power then ws_send (command "send_text" [PStr " "])
    else ws_send (command "clear" [])
  else
    cs <- get_states ;;
    if Dict.has key cs then
      store key data ;;
      print (MqttUpdated key data)
    else ret tt.

(** The [if]/[elif] chain of [handle_set_payload] on the decoded payload:
    a dict on the key [set] first, then the individual topics. *)
Definition dispatch (key : string) (data : pyval) : M unit :=
  match String.eqb key "set", data with
  | true, PDict d =>
      print (MqttProcessing data) ;;
      match Dict.get "command" d, Dict.get "params" d, Dict.get "send_text" d with
      | Some cmd, Some params, _ => structured data cmd params
      | _, _, Some text => flat d text
      | _, _, None => ret tt
      end
  | _, _ => individual key data
  end.

(** The payload is the text of the message: [payload.decode()] has been
    done.  Bytes that are not UTF-8 make that call raise before anything
    else happens; such a message is not a text and is outside the model. *)
Definition handle_set_payload (key payload : string) : M unit :=
  print (MqttSet key payload) ;;
  dispatch key (parse_payload payload) ;;
  publish_states.

(** [topic[len(CMD_TOPIC)+1:]] *)
Definition subtopic (topic : string) : string :=
  Text.drop (String.length CMD_TOPIC + 1) topic.

(** The last loop of [on_message]: the first key whose set topic is the
    topic of the message. *)
Fixpoint find_set_topic (topic : string) (l : list (string * string)) : option string :=
  match l with
  | [] => None
  | (k, t) :: r => if String.eqb topic (t ++ "/set") then Some k else find_set_topic topic r
  end.

Definition on_message (topic payload : string) : M unit :=
  print (MqttReceived topic payload) ;;
  if String.eqb topic CMD_TOPIC then handle_set_payload "set" payload
  else if Text.startswith (CMD_TOPIC ++ "/") topic then
    handle_set_payload (subtopic topic) payload
  else if String.eqb topic (BASE_TOPIC ++ "/send_text") then  (* TOPICS[send_text] *)
    handle_set_payload "send_text" payload
  else
    match find_set_topic topic TOPICS with
    | Some key => handle_set_payload key payload
    | None => ret tt
    end.

Definition on_connect : M unit :=
  print MqttConnected ;;
  emit (Subscribe CMD_TOPIC) ;;
  emit (Subscribe (CMD_TOPIC ++ "/#")) ;;
  for_each TOPICS (fun kt => emit (Subscribe (snd kt ++ "/set"))) ;;
  emit (Subscribe (BASE_TOPIC ++ "/send_text")) ;;
  publish_states.

(** [periodic_tasks] is [ensure_server] once, then [publish_states] every
    ten seconds. *)

End Bridge.

Arguments BASE_TOPIC : simpl never.
Arguments CMD_TOPIC : simpl never.
Arguments STATE_TOPIC : simpl never.
Arguments LAST_TEXT_TOPIC : simpl never.
Arguments TOPICS : simpl never.

(** The globals when the module is loaded, with a given network. *)
Definition initial (net : nat -> bool) : World :=
  mkWorld DEFAULTS (PStr EmptyString) None 0 net 0 [].
(* ===================================================================== *)
(** ** What a run shows *)
(* ===================================================================== *)

Definition run {A : Type} (m : M A) (w : World) : World := snd (m w).
Definition outcome {A : Type} (m : M A) (w : World) : result A := fst (m w).

(** The session operations entered, in order. *)
Definition is_call (e : event) : bool :=
  match e with
  | EnsureServer | WsSend _ => true
  | _ => false
  end.

Definition calls (t : list event) : list event := filter is_call t.

(** The command objects given to [ws_send], in order. *)
Definition sent (e : event) : list pyval :=
  match e with
  | WsSend p => [p]
  | _ => []
  end.

Definition sends (t : list event) : list pyval := flat_map sent t.

(** The messages given to [client.publish], in order. *)
Definition message (e : event) : list (string * mqtt_payload * bool) :=
  match e with
  | Publish t p r => [(t, p, r)]
  | _ => []
  end.

Definition published (t : list event) : list (string * mqtt_payload * bool) :=
  flat_map message t.

(** The command objects given to the socket by [ws_send], sent or not, in
    order. *)
Definition framed (e : event) : list pyval :=
  match e with
  | Frame _ p _ => [p]
  | _ => []
  end.

Definition frames (t : list event) : list pyval := flat_map framed t.

(** The latest document of the whole state that was published. *)
Fixpoint snapshot (t : list event) : option dict :=
  match t with
  | [] => None
  | e :: r =>
      match snapshot r with
      | Some d => Some d
      | None =>
          match e with
          | Publish _ (Document d) _ => Some d
          | _ => None
          end
      end
  end.

(** [payload["params"][0]] of a command object *)
Definition first_argument (payload : pyval) : option pyval :=
  match Obj.item payload "params" with
  | Ok ps => match Obj.first ps with Ok x => Some x | Raise _ => None end
  | Raise _ => None
  end.

Definition stored_power (w : World) : option pyval :=
  Dict.get "power" (current_states w).

Definition with_events (l : list event) (w : World) : World :=
  mkWorld (current_states w) (last_text w) (ws w) (sockets w) (net w) (clock w)
          (trace w ++ l)%list.

(** What one call of [publish_states] publishes in a world. *)
Definition state_messages (mac : string) (cs : dict) (lt : pyval) : list event :=
  (flat_map
     (fun kv =>
        match lookup (fst kv) (TOPICS mac) with
        | Some t =>
            if Text.is_empty t then []
            else [Publish (t ++ "/state") (Rendered (Py.str (snd kv))) true]
        | None => []
        end) cs
   ++ [Publish (STATE_TOPIC mac) (Document cs) true;
       Publish (LAST_TEXT_TOPIC mac) (Given lt) true])%list.

(** The topic on which attribute [k] is set. *)
Definition set_topic (mac k : string) : string := (BASE_TOPIC mac ++ "/" ++ k) ++ "/set".

(** The attributes set by the last branch of [handle_set_payload]. *)
Definition plain_attributes : list string :=
  [ "brightness"; "speed"; "animation"; "color"; "font"; "matrix_height";
    "font_size"; "font_offset_x"; "font_offset_y" ].

(** What the power branch stores for a decoded payload, and what it
    sends for a stored value. *)
Definition power_value (data : pyval) : bool :=
  Text.among (Text.upper (Py.str data)) ["ON"; "1"; "TRUE"].

Definition power_command (b : bool) : pyval :=
  if b then command "send_text" [PStr " "] else command "clear" [].

(** The stored states after the loop that updates all provided states. *)
Definition merge (d cs : dict) : dict :=
  fold_left
    (fun cs kv => if Dict.has (fst kv) cs then Dict.set (fst kv) (snd kv) cs else cs)
    d cs.

(** The worlds the running program can be in: the callbacks of the MQTT
    client, and the periodic task, from the globals as loaded. *)
Inductive reachable (mac : string) : World -> Prop :=
| reach_initial (net : nat -> bool) : reachable mac (initial net)
| reach_message (w : World) (topic payload : string) :
    reachable mac w -> reachable mac (run (on_message mac topic payload) w)
| reach_connect (w : World) :
    reachable mac w -> reachable mac (run (on_connect mac) w)
| reach_publish (w : World) :
    reachable mac w -> reachable mac (run (publish_states mac) w)
| reach_ensure (w : World) :
    reachable mac w -> reachable mac (run ensure_server w).

(* ===================================================================== *)
(** ** Notions for the proofs *)
(* ===================================================================== *)

(** [keeps f m]: a run of [m] leaves the observation [f] of the world as it
    was, whether it returns or raises. *)
Definition keeps {X A : Type} (f : World -> X) (m : M A) : Prop :=
  forall w, f (run m w) = f w.

(** [total m]: a run of [m] returns; it never raises. *)
Definition total {A : Type} (m : M A) : Prop :=
  forall w, exists a, outcome m w = Ok a.

(** [post m w Q]: [Q] holds of the outcome and the world after [m] run
    from [w]. *)
Definition post {A : Type} (m : M A) (w : World) (Q : result A -> World -> Prop) : Prop :=
  Q (outcome m w) (run m w).

(** Observations of the world that the rules below are used with. *)
Definition calls_so_far (w : World) : list event := calls (trace w).
Definition published_so_far (w : World) : list (string * mqtt_payload * bool) :=
  published (trace w).
Definition frames_so_far (w : World) : list pyval := frames (trace w).
Definition globals (w : World) :=
  (current_states w, last_text w, net w, published_so_far w).

(** What the session operations leave as it was, apart from marking their
    entry: the stored states, the text, the network, what was published
    and the session operations entered. *)
Definition untouched (w : World) := (globals w, calls_so_far w).

(** [adds_at_most p m]: a run of [m] gives the socket the command object
    [p] once, or nothing. *)
Definition adds_at_most {A : Type} (p : pyval) (m : M A) : Prop :=
  forall w, frames_so_far (run m w) = frames_so_far w \/
            frames_so_far (run m w) = (frames_so_far w ++ [p])%list.

(** A run that has enough fuel is not starved, and what it leaves is
    shorter than what it was given. *)
Definition sound {A : Type} (p : Json.parse A) (s : string) : Prop :=
  match p with
  | Json.Parsed _ r => String.length r < String.length s
  | Json.Failed => True
  | Json.Starved => False
  end.

(* ===================================================================== *)
(** ** Examples and sentences *)
(* ===================================================================== *)

(** Networks and documents for the examples. *)
Definition up : nat -> bool := fun _ => true.
Definition down : nat -> bool := fun _ => false.
Definition example_mac : string := "65:54:87:4A:3E:63".

Definition hello_structured : string :=
  Text.json_text "{'command':'send_text','params':['text=Hello','color=ff0000']}".
Definition hello_flat : string :=
  Text.json_text "{'send_text':'Hello','color':'ff0000'}".
Definition led_on_now : string :=
  Text.json_text "{'command':'led_on','params':['now']}".
Definition led_off_plain : string :=
  Text.json_text "{'command':'led_off','params':[]}".
Definition send_text_number : string :=
  Text.json_text "{'command':'send_text','params':[1]}".

(** A world with a socket in hand and a network that is down. *)
Definition stale : World :=
  mkWorld DEFAULTS (PStr EmptyString) (Some 0) 1 down 0 [].

(** A world in which the display is on. *)
Definition lit (net : nat -> bool) : World :=
  with_states (Dict.set "power" (PBool true) DEFAULTS) (initial net).

(** *** The sentences of the specification that the program does not satisfy
    as they are written *)

(** Both dialects leave the text Hello and send a command whose first
    argument is Hello. *)
Definition dialects_send_hello_first (mac : string) (w : World) : Prop :=
  forall payload, In payload [hello_structured; hello_flat] ->
    let w' := run (handle_set_payload mac "set" payload) w in
    last_text w' = PStr "Hello" /\
    exists p, sends (trace w') = (sends (trace w) ++ [p])%list /\
              first_argument p = Some (PStr "Hello").

(** A dict with command and params is forwarded as it is, after
    [ensure_server]. *)
Definition forwarded_verbatim (mac : string) (w : World) (payload : string) : Prop :=
  forall d, Json.loads payload = Some (PDict d) ->
    Dict.has "command" d = true -> Dict.has "params" d = true ->
    calls (trace (run (handle_set_payload mac "set" payload) w))
    = (calls (trace w) ++ [EnsureServer; WsSend (PDict d)])%list.

(** A failed transmission leaves no socket in [ws]. *)
Definition send_failure_disconnects (w : World) (payload : pyval) : Prop :=
  forall s, ws w = Some s -> net w (clock w) = false ->
    ws (run (ws_send payload) w) = None.

(** Power is stored true for the five tokens and for nothing else. *)
Definition power_tokens : list string := ["on"; "ON"; "1"; "true"; "TRUE"].

Definition power_true_only_for_tokens (mac : string) (w : World) (payload : string) : Prop :=
  stored_power (run (on_message mac (set_topic mac "power") payload) w) = Some (PBool true)
  <-> In payload power_tokens.

(* ===================================================================== *)
(** ** More of what a run shows *)
(* ===================================================================== *)

(** The times the server command was started. *)
Definition is_spawn (e : event) : bool :=
  match e with Spawn => true | _ => false end.

Definition spawns (t : list event) : nat := List.length (filter is_spawn t).

(** The sockets that were closed, the sockets that were probed and the
    sockets that were opened, each with the outcome where it has one. *)
Definition closed (e : event) : list nat :=
  match e with Close s => [s] | _ => [] end.

Definition closes (t : list event) : list nat := flat_map closed t.

Definition probed (e : event) : list (nat * bool) :=
  match e with Probe s ok => [(s, ok)] | _ => [] end.

Definition probes (t : list event) : list (nat * bool) := flat_map probed t.

Definition opened (e : event) : list (nat * bool) :=
  match e with Connect s ok => [(s, ok)] | _ => [] end.

Definition opens (t : list event) : list (nat * bool) := flat_map opened t.

(** The command objects that the socket took: the transmissions that did
    not raise. *)
Definition taken (e : event) : list pyval :=
  match e with Frame _ p true => [p] | _ => [] end.

Definition delivered (t : list event) : list pyval := flat_map taken t.

(** The topics subscribed to, and the lines printed. *)
Definition subscribed (e : event) : list string :=
  match e with Subscribe t => [t] | _ => [] end.

Definition subscriptions (t : list event) : list string := flat_map subscribed t.

Definition line_of (e : event) : list log :=
  match e with Printed l => [l] | _ => [] end.

Definition printed (t : list event) : list log := flat_map line_of t.

(** [m] run [n] times, one run after the other; a run that raises ends
    it. *)
Fixpoint iterate {A : Type} (n : nat) (m : M A) : M unit :=
  match n with
  | O => ret tt
  | S k => bind m (fun _ => iterate k m)
  end.

(** [periodic_tasks] is [ensure_server] once and then [publish_states]
    every ten seconds, for ever: here, its first [rounds] turns of the
    loop, the waiting left out. *)
Definition periodic_tasks (mac : string) (rounds : nat) : M unit :=
  bind ensure_server (fun _ => iterate rounds (publish_states mac)).

(** [preserves I m]: a run of [m] from a world where [I] holds ends in a
    world where [I] holds, whether it returns or raises. *)
Definition preserves {A : Type} (I : World -> Prop) (m : M A) : Prop :=
  forall w, I w -> I (run m w).

(** The socket in hand, if any, is the last one that was created. *)
Definition newest_socket (w : World) : Prop :=
  forall s, ws w = Some s -> sockets w = S s.

(** A world with a socket in hand, on a given network. *)
Definition held (net : nat -> bool) : World :=
  mkWorld DEFAULTS (PStr EmptyString) (Some 0) 1 net 0 [].

(** The network is up, or down, from now on. *)
Definition always (b : bool) (w : World) : Prop := forall n, net w n = b.

(** What [send_text_to_led] and the flat dialect append for a key: the
    pair [k=value], unless there is no value or the value is [None]. *)
Definition shown (values : dict) (k : string) : list pyval :=
  match Dict.get k values with
  | Some v => if Py.is_none v then [] else [key_value k v]
  | None => []
  end.

(** The session as the bridge holds it: the socket in hand, the number of
    sockets created, the connections tried and the sockets closed. *)
Definition session (w : World) : option nat * nat * list (nat * bool) * list nat :=
  (ws w, sockets w, opens (trace w), closes (trace w)).

(** At most one connection: the socket in hand was connected and is not
    closed, every other socket that was connected has been closed, and only
    connected sockets are closed. *)
Definition tidy (v : option nat * nat * list (nat * bool) * list nat) : Prop :=
  let '(h, n, o, c) := v in
  (forall s ok, In (s, ok) o -> s < n) /\
  (forall s, In s c -> In (s, true) o) /\
  (forall s, h = Some s -> In (s, true) o /\ ~ In s c) /\
  (forall s, In (s, true) o -> h = Some s \/ In s c).

Definition one_connection (w : World) : Prop := tidy (session w).

(** What a run costs: calls into the websocket library, sockets, server
    starts, entries of [ws_send] and command objects given to a socket. *)
Definition counters (w : World) : nat * nat * nat * nat * nat :=
  (clock w, sockets w, spawns (trace w),
   List.length (sends (trace w)), List.length (frames (trace w))).

(** [spends a b m]: a run of [m] costs no more than [a] runs of
    [ensure_server] and [b] runs of [ws_send]. *)
Definition spends {A : Type} (a b : nat) (m : M A) : Prop :=
  forall w,
    clock (run m w) <= clock w + 3 * a + 2 * b /\
    sockets (run m w) <= sockets w + 2 * a + b /\
    spawns (trace (run m w)) <= spawns (trace w) + a /\
    List.length (sends (trace (run m w))) <= List.length (sends (trace w)) + b /\
    List.length (frames (trace (run m w))) <= List.length (frames (trace w)) + b.

(** The topics that [on_connect] subscribes to, in its order. *)
Definition subscribed_topics (mac : string) : list string :=
  CMD_TOPIC mac
  :: (CMD_TOPIC mac ++ "/#")
  :: (List.map (set_topic mac) topic_names
      ++ [(BASE_TOPIC mac ++ "/send_text")%string])%list.

(** A topic that these subscriptions deliver: one that is subscribed by
    name, or one below the command topic, where the subscription ends in
    the wildcard [#]. *)
Definition covered (mac topic : string) : bool :=
  Text.among topic (subscribed_topics mac)
  || Text.startswith (CMD_TOPIC mac ++ "/") topic.

(** A message that [on_message] only prints. *)
Definition only_logged (mac topic payload : string) (w : World) : Prop :=
  on_message mac topic payload w
  = (Ok tt, with_event (Printed (MqttReceived topic payload)) w).

(** Whether the chain of [handle_set_payload] acts on a decoded payload of
    the key [set]: a dict with [command] and [params] whose command is
    led_on, led_off, or send_text with truthy params; or a dict without one
    of the two and with [send_text]. *)
Definition acted_on (data : pyval) : bool :=
  match data with
  | PDict d =>
      match Dict.get "command" d, Dict.get "params" d with
      | Some cmd, Some params =>
          Py.eq_str cmd "led_on" || Py.eq_str cmd "led_off"
          || (Py.eq_str cmd "send_text" && Py.truthy params)
      | _, _ => Dict.has "send_text" d
      end
  | _ => false
  end.

(** The topic of a published message. *)
Definition topic_of (m : string * mqtt_payload * bool) : string := fst (fst m).
Definition retained (m : string * mqtt_payload * bool) : bool := snd m.

(** The topics of one [publish_states] when the stored states have the
    keys of the defaults. *)
Definition state_topics (mac : string) : list string :=
  (List.map (fun k => ((BASE_TOPIC mac ++ "/" ++ k) ++ "/state")%string)
            (Dict.keys DEFAULTS)
   ++ [STATE_TOPIC mac; LAST_TEXT_TOPIC mac])%list.

(* ===================================================================== *)
(** ** The decoder never runs out of fuel *)
(* ===================================================================== *)

Module JsonFacts.
Import Json.

Local Open Scope nat_scope.

Lemma skip_ws_le (s : string) : String.length (skip_ws s) <= String.length s.
Proof.
  induction s as [| c r IH]; simpl; [lia |].
  destruct (is_ws c); simpl; lia.
Qed.

Lemma digits_le (s d t : string) :
  digits s = (d, t) -> String.length t <= String.length s.
Proof.
  revert d t; induction s as [| c r IH]; simpl; intros d t H.
  - inversion H; subst; simpl; lia.
  - destruct (Text.is_digit c).
    + destruct (digits r) as [d' t'] eqn:E. inversion H; subst.
      specialize (IH _ _ eq_refl). lia.
    + inversion H; subst; simpl; lia.
Qed.

Lemma unsigned_part_lt (s i t : string) :
  unsigned_part s = Some (i, t) -> String.length t < String.length s.
Proof.
  destruct s as [| c r]; simpl; [discriminate |].
  destruct (Ascii.eqb c "0"%char).
  - intros H; inversion H; subst; lia.
  - destruct (Text.between 49 57 c); [| discriminate].
    destruct (digits r) as [d t'] eqn:E. intros H; inversion H; subst.
    apply digits_le in E. lia.
Qed.

Lemma int_part_lt (s i t : string) :
  int_part s = Some (i, t) -> String.length t < String.length s.
Proof.
  destruct s as [| c r]; [discriminate |].
  unfold int_part. destruct (Ascii.eqb c "-"%char).
  - destruct (unsigned_part r) as [[i' t'] |] eqn:E; [| discriminate].
    intros H; inversion H; subst. apply unsigned_part_lt in E. simpl; lia.
  - apply unsigned_part_lt.
Qed.

Lemma frac_part_le (s f t : string) :
  frac_part s = Some (f, t) -> String.length t <= String.length s.
Proof.
  destruct s as [| c r]; simpl; [discriminate |].
  destruct (Ascii.eqb c "."%char); [| discriminate].
  destruct (digits r) as [d t'] eqn:E.
  destruct (Text.is_empty d); [discriminate |].
  intros H; inversion H; subst. apply digits_le in E. lia.
Qed.

Lemma sign_part_le (s sg t : string) :
  sign_part s = (sg, t) -> String.length t <= String.length s.
Proof.
  destruct s as [| c r]; simpl.
  - intros H; inversion H; subst; simpl; lia.
  - destruct (Ascii.eqb c "+"%char || Ascii.eqb c "-"%char);
      intros H; inversion H; subst; simpl; lia.
Qed.

Lemma exp_part_le (s e t : string) :
  exp_part s = Some (e, t) -> String.length t <= String.length s.
Proof.
  destruct s as [| c r]; simpl; [discriminate |].
  destruct (Ascii.eqb c "e"%char || Ascii.eqb c "E"%char); [| discriminate].
  destruct (sign_part r) as [sg r1] eqn:E1.
  destruct (digits r1) as [d t'] eqn:E2.
  destruct (Text.is_empty d); [discriminate |].
  intros H; inversion H; subst.
  apply sign_part_le in E1. apply digits_le in E2. lia.
Qed.

Lemma optional_le (p : string -> option (string * string)) (s x t : string) :
  (forall a b, p s = Some (a, b) -> String.length b <= String.length s) ->
  optional p s = (x, t) -> String.length t <= String.length s.
Proof.
  unfold optional. intros Hp. destruct (p s) as [[a b] |] eqn:E.
  - intros H; inversion H; subst. eauto.
  - intros H; inversion H; subst. lia.
Qed.

Lemma number_lt (s : string) (v : pyval) (t : string) :
  number s = Some (v, t) -> String.length t < String.length s.
Proof.
  unfold number. destruct (int_part s) as [[i r] |] eqn:Ei; [| discriminate].
  destruct (optional frac_part r) as [f r1] eqn:Ef.
  destruct (optional exp_part r1) as [e r2] eqn:Ee.
  apply int_part_lt in Ei.
  apply optional_le in Ef; [| intros a b; apply frac_part_le].
  apply optional_le in Ee; [| intros a b; apply exp_part_le].
  destruct (Text.is_empty f && Text.is_empty e); intros H; inversion H; subst; lia.
Qed.

Lemma prefix_drop (p s : string) :
  String.prefix p s = true ->
  String.length (Text.drop (String.length p) s) + String.length p = String.length s.
Proof.
  revert s; induction p as [| a p IH]; intros s H; simpl.
  - destruct s; simpl; lia.
  - destruct s as [| b s]; simpl in H; [discriminate |].
    destruct (ascii_dec a b); [| discriminate].
    simpl. specialize (IH _ H). lia.
Qed.

Lemma literal_lt (word : string) (v v' : pyval) (s t : string) :
  0 < String.length word ->
  literal word v s = Some (v', t) -> String.length t < String.length s.
Proof.
  unfold literal. intros Hw. destruct (String.prefix word s) eqn:E; [| discriminate].
  intros H; inversion H; subst. apply prefix_drop in E. lia.
Qed.

Lemma first_of_some {A : Type} (a b : option A) (x : A) :
  first_of a b = Some x -> a = Some x \/ b = Some x.
Proof. destruct a; simpl; auto. Qed.

Lemma scalar_lt (s : string) (v : pyval) (t : string) :
  scalar s = Some (v, t) -> String.length t < String.length s.
Proof.
  unfold scalar. intros H.
  repeat (apply first_of_some in H; destruct H as [H | H]);
    try (apply literal_lt in H; [exact H | simpl; lia]).
  now apply number_lt in H.
Qed.

Lemma push_some (i : item) (x : option (list item * string)) l r :
  push i x = Some (l, r) -> exists l', x = Some (l', r).
Proof.
  destruct x as [[l' r'] |]; simpl; [| discriminate].
  intros H; inversion H; subst; eauto.
Qed.

Lemma scan_items_lt_bounded (n : nat) :
  forall s l r, String.length s <= n ->
    scan_items s = Some (l, r) -> String.length r < String.length s.
Proof.
  induction n as [| n IH]; intros s l r Hn H.
  - destruct s; [discriminate | simpl in Hn; lia].
  - destruct s as [| c s1]; [discriminate |].
    simpl in H, Hn.
    destruct (Ascii.eqb c dquote).
    { inversion H; subst; simpl; lia. }
    destruct (Ascii.eqb c "\"%char).
    + destruct s1 as [| e s2]; [discriminate |].
      destruct (Ascii.eqb e "u"%char).
      * destruct s2 as [| a [| b [| x [| y s3]]]]; try discriminate.
        destruct (hex4 a b x y); [| discriminate].
        apply push_some in H; destruct H as [l' H].
        apply IH in H; simpl in *; lia.
      * destruct (backslash e); [| discriminate].
        apply push_some in H; destruct H as [l' H].
        apply IH in H; simpl in *; lia.
    + destruct (Text.code c <? 32)%N; [discriminate |].
      apply push_some in H; destruct H as [l' H].
      apply IH in H; simpl in *; lia.
Qed.

Lemma scanstring_lt (s t r : string) :
  scanstring s = Some (t, r) -> String.length r < String.length s.
Proof.
  unfold scanstring. destruct (scan_items s) as [[l r'] |] eqn:E; [| discriminate].
  intros H; inversion H; subst.
  eapply scan_items_lt_bounded; [apply Nat.le_refl | exact E].
Qed.

Lemma cons_parsed_sound {A : Type} (a : A) (p : parse (list A)) (s s' : string) :
  sound p s' -> String.length s' <= String.length s -> sound (cons_parsed a p) s.
Proof. destruct p; simpl; auto; lia. Qed.

Lemma enough_fuel (fuel : nat) :
  forall s,
    (2 * String.length s < fuel -> sound (scan_once fuel s) s) /\
    (2 * String.length s + 1 < fuel -> sound (elements fuel s) s) /\
    (2 * String.length s < fuel -> sound (members fuel s) s).
Proof.
  induction fuel as [| n IH]; intros s.
  - repeat split; lia.
  - split; [| split]; intros Hf.
    + (* scan_once *)
      destruct s as [| c r]; simpl; [exact I |].
      simpl in Hf.
      destruct (Ascii.eqb c dquote).
      { destruct (scanstring r) as [[t r'] |] eqn:E; simpl; [| exact I].
        apply scanstring_lt in E. lia. }
      destruct (Ascii.eqb c "{"%char).
      { pose proof (skip_ws_le r) as Hw.
        destruct (skip_ws r) as [| c1 r1]; simpl; [exact I |].
        simpl in Hw.
        destruct (Ascii.eqb c1 "}"%char); simpl; [lia |].
        destruct (Ascii.eqb c1 dquote); simpl; [| exact I].
        destruct (IH r1) as (_ & _ & Hm).
        assert (Hs : sound (members n r1) r1) by (apply Hm; lia).
        destruct (members n r1); simpl in *; auto; lia. }
      destruct (Ascii.eqb c "["%char).
      { pose proof (skip_ws_le r) as Hw.
        destruct (skip_ws r) as [| c1 r1]; simpl; [exact I |].
        simpl in Hw.
        destruct (Ascii.eqb c1 "]"%char); simpl; [lia |].
        destruct (IH (String c1 r1)) as (_ & He & _).
        assert (Hs : sound (elements n (String c1 r1)) (String c1 r1))
          by (apply He; simpl; lia).
        destruct (elements n (String c1 r1)); simpl in *; auto; lia. }
      destruct (scalar (String c r)) as [[v r'] |] eqn:E; simpl; [| exact I].
      apply scalar_lt in E. simpl in E. lia.
    + (* elements *)
      simpl.
      destruct (IH s) as (Hv & _ & _).
      assert (Hs : sound (scan_once n s) s) by (apply Hv; lia).
      destruct (scan_once n s) as [v r | |]; simpl in *; auto.
      pose proof (skip_ws_le r) as Hw.
      destruct (skip_ws r) as [| c r1]; simpl; [exact I |].
      simpl in Hw.
      destruct (Ascii.eqb c "]"%char); simpl; [lia |].
      destruct (Ascii.eqb c ","%char); simpl; [| exact I].
      pose proof (skip_ws_le r1) as Hw1.
      destruct (IH (skip_ws r1)) as (_ & He & _).
      eapply cons_parsed_sound; [apply He; lia | lia].
    + (* members *)
      simpl.
      destruct (scanstring s) as [[k r] |] eqn:Ek; simpl; [| exact I].
      apply scanstring_lt in Ek.
      pose proof (skip_ws_le r) as Hw.
      destruct (skip_ws r) as [| c r1]; simpl; [exact I |].
      simpl in Hw.
      destruct (Ascii.eqb c ":"%char); simpl; [| exact I].
      pose proof (skip_ws_le r1) as Hw1.
      destruct (IH (skip_ws r1)) as (Hv & _ & _).
      assert (Hs : sound (scan_once n (skip_ws r1)) (skip_ws r1)) by (apply Hv; lia).
      destruct (scan_once n (skip_ws r1)) as [v r2 | |]; simpl in *; auto.
      pose proof (skip_ws_le r2) as Hw2.
      destruct (skip_ws r2) as [| c2 r3]; simpl; [exact I |].
      simpl in Hw2.
      destruct (Ascii.eqb c2 "}"%char); simpl; [lia |].
      destruct (Ascii.eqb c2 ","%char); simpl; [| exact I].
      pose proof (skip_ws_le r3) as Hw3.
      destruct (skip_ws r3) as [| c3 r4]; simpl; [exact I |].
      simpl in Hw3.
      destruct (Ascii.eqb c3 dquote); simpl; [| exact I].
      destruct (IH r4) as (_ & _ & Hm).
      eapply cons_parsed_sound; [apply Hm; lia | lia].
Qed.

(** [Json.loads] never stops for want of fuel: [None] is always an error
    of the document. *)
Lemma loads_never_starved (s : string) : decode (fuel_for s) s <> Starved.
Proof.
  unfold decode, fuel_for.
  pose proof (skip_ws_le s) as Hw.
  destruct (enough_fuel (2 * String.length s + 1) (skip_ws s)) as (Hv & _ & _).
  assert (Hs : sound (scan_once (2 * String.length s + 1) (skip_ws s)) (skip_ws s))
    by (apply Hv; lia).
  destruct (scan_once (2 * String.length s + 1) (skip_ws s)); simpl in Hs.
  - destruct (Text.is_empty (skip_ws rest)); discriminate.
  - discriminate.
  - contradiction.
Qed.

End JsonFacts.

(** The decoder on some documents, as CPython decodes them. *)

Example loads_object_keeps_last_value :
  Json.loads (Text.json_text "{'a':1, 'b' : [true, null] ,'a':3}")
  = Some (PDict [("a", PInt 3); ("b", PList [PBool true; PNone])]).
Proof. vm_compute. reflexivity. Qed.

Example loads_refuses_trailing_comma :
  Json.loads "[1,]" = None /\ Json.loads (Text.json_text "{'a':1,}") = None.
Proof. vm_compute. split; reflexivity. Qed.

Example loads_numbers :
  List.map Json.loads [" -0 "; "01"; "1.5e3"; "1."; "1e"; "-"; "-Infinity"]
  = [Some (PInt 0); None; Some (PFloat (FLit "1.5e3")); None; None; None;
     Some (PFloat (FInf true))].
Proof. vm_compute. reflexivity. Qed.

Example loads_escapes :
  Json.loads (Text.json_text "'\u0041\n\u00e9'")
  = Some (PStr (String "A" (String "010" (String "195" (String "169" EmptyString))))).
Proof. vm_compute. reflexivity. Qed.

Example loads_refuses_words :
  List.map Json.loads ["On"; "TRUE"; "tru"; "nul l"; "1 2"]
  = [None; None; None; None; None].
Proof. vm_compute. reflexivity. Qed.

Example str_of_containers :
  Py.str (PDict [("a", PList [PStr "x'y"; PInt (-3); PNone; PBool true])])
  = "{'a': [" ++ Text.json_text "'" ++ "x'y" ++ Text.json_text "'" ++ ", -3, None, True]}".
Proof. vm_compute. reflexivity. Qed.

(* ===================================================================== *)
(** ** Texts and dicts *)
(* ===================================================================== *)

Module TextFacts.

Lemma append_assoc (a b c : string) : (a ++ b) ++ c = a ++ (b ++ c).
Proof. induction a as [| x a IH]; simpl; [reflexivity | now rewrite IH]. Qed.

Lemma eqb_append_l (p x y : string) : String.eqb (p ++ x) (p ++ y) = String.eqb x y.
Proof.
  induction p as [| c p IH]; simpl; [reflexivity |].
  now rewrite Ascii.eqb_refl.
Qed.

Lemma prefix_append_l (p x y : string) : String.prefix (p ++ x) (p ++ y) = String.prefix x y.
Proof.
  induction p as [| c p IH]; simpl; [reflexivity |].
  destruct (ascii_dec c c) as [_ | N]; [exact IH | now elim N].
Qed.

Lemma drop_append (p x : string) : Text.drop (String.length p) (p ++ x) = x.
Proof. induction p as [| c p IH]; simpl; [now destruct x | exact IH]. Qed.

Lemma eqb_append_nonempty (p : string) (c : ascii) (x : string) :
  String.eqb (p ++ String c x) p = false.
Proof.
  induction p as [| a p IH]; simpl; [reflexivity |].
  now rewrite Ascii.eqb_refl.
Qed.

Lemma prefix_nil (s : string) : String.prefix EmptyString s = true.
Proof. now destruct s. Qed.

Lemma startswith_next (p : string) (c : ascii) (x : string) :
  Text.startswith (p ++ String c EmptyString) (p ++ String c x) = true.
Proof.
  unfold Text.startswith. induction p as [| a p IH]; simpl.
  - destruct (ascii_dec c c) as [_ | N]; [apply prefix_nil | now elim N].
  - destruct (ascii_dec a a) as [_ | N]; [exact IH | now elim N].
Qed.

Lemma drop_append_next (p : string) (c : ascii) (x : string) :
  Text.drop (String.length p + 1) (p ++ String c x) = x.
Proof. induction p as [| a p IH]; simpl; [reflexivity | exact IH]. Qed.

Lemma length_append (a b : string) :
  String.length (a ++ b) = String.length a + String.length b.
Proof. induction a as [| x a IH]; simpl; [reflexivity | now rewrite IH]. Qed.

End TextFacts.

Module DictFacts.

Lemma get_set_same (k : string) (v : pyval) (d : dict) :
  Dict.get k (Dict.set k v d) = Some v.
Proof.
  induction d as [| [k' v'] r IH]; simpl.
  - now rewrite String.eqb_refl.
  - destruct (String.eqb k k') eqn:E; simpl; rewrite E; [reflexivity | exact IH].
Qed.

Lemma get_set_other (k k' : string) (v : pyval) (d : dict) :
  k' <> k -> Dict.get k' (Dict.set k v d) = Dict.get k' d.
Proof.
  intros N. induction d as [| [k0 v0] r IH]; simpl.
  - apply String.eqb_neq in N. now rewrite N.
  - destruct (String.eqb k k0) eqn:E; simpl.
    + apply String.eqb_eq in E; subst k0.
      apply String.eqb_neq in N. now rewrite N.
    + now rewrite IH.
Qed.

Lemma has_In (k : string) (d : dict) : Dict.has k d = true <-> In k (Dict.keys d).
Proof.
  unfold Dict.has. induction d as [| [k' v'] r IH]; simpl.
  - split; [discriminate | tauto].
  - destruct (String.eqb k k') eqn:E.
    + apply String.eqb_eq in E. split; auto.
    + apply String.eqb_neq in E. rewrite IH. split; [auto | intros [H | H]; congruence].
Qed.

(** Assigning to a key that is there changes no key. *)
Lemma keys_set (k : string) (v : pyval) (d : dict) :
  Dict.has k d = true -> Dict.keys (Dict.set k v d) = Dict.keys d.
Proof.
  unfold Dict.has. induction d as [| [k' v'] r IH]; simpl; [discriminate |].
  destruct (String.eqb k k') eqn:E; simpl; [reflexivity |].
  intros H. now rewrite IH.
Qed.

Lemma has_set (k : string) (v : pyval) (d : dict) : Dict.has k (Dict.set k v d) = true.
Proof. unfold Dict.has. now rewrite get_set_same. Qed.

End DictFacts.

(* ===================================================================== *)
(** ** Traces *)
(* ===================================================================== *)

Lemma calls_app (a b : list event) : calls (a ++ b) = (calls a ++ calls b)%list.
Proof. apply filter_app. Qed.

Lemma sends_app (a b : list event) : sends (a ++ b) = (sends a ++ sends b)%list.
Proof. apply flat_map_app. Qed.

Lemma published_app (a b : list event) :
  published (a ++ b) = (published a ++ published b)%list.
Proof. apply flat_map_app. Qed.

(** The sends are those of the calls. *)
Lemma sends_calls (t : list event) : sends t = sends (calls t).
Proof.
  induction t as [| e r IH]; simpl; [reflexivity |].
  destruct e; simpl; rewrite IH; reflexivity.
Qed.

Lemma snapshot_app (a b : list event) :
  snapshot (a ++ b) = match snapshot b with Some d => Some d | None => snapshot a end.
Proof.
  induction a as [| e r IH]; simpl.
  - now destruct (snapshot b).
  - rewrite IH. now destruct (snapshot b).
Qed.

Lemma with_events_app (a b : list event) (w : World) :
  with_events b (with_events a w) = with_events (a ++ b) w.
Proof. unfold with_events; simpl. now rewrite app_assoc. Qed.

Lemma with_event_events (e : event) (w : World) : with_event e w = with_events [e] w.
Proof. reflexivity. Qed.

Lemma with_events_nil (w : World) : with_events [] w = w.
Proof. destruct w; unfold with_events; simpl. now rewrite app_nil_r. Qed.

(* ===================================================================== *)
(** ** Runs: what a computation keeps, whether it returns, what holds after *)
(* ===================================================================== *)

Section Rules.

Context {X : Type} (f : World -> X).

Lemma keeps_ret {A : Type} (a : A) : keeps f (ret a).
Proof. intros w; reflexivity. Qed.

Lemma keeps_raise {A : Type} (e : exn) : keeps f (@raise A e).
Proof. intros w; reflexivity. Qed.

Lemma keeps_lift {A : Type} (r : result A) : keeps f (lift r).
Proof. intros w; reflexivity. Qed.

Lemma keeps_bind {A B : Type} (m : M A) (k : A -> M B) :
  keeps f m -> (forall a, keeps f (k a)) -> keeps f (bind m k).
Proof.
  intros Hm Hk w. specialize (Hm w). unfold run, bind in *.
  destruct (m w) as [[a | e] w1]; simpl in *.
  - rewrite <- Hm. apply (Hk a w1).
  - exact Hm.
Qed.

Lemma keeps_try {A : Type} (m : M A) (h : exn -> M A) :
  keeps f m -> (forall e, keeps f (h e)) -> keeps f (try_except m h).
Proof.
  intros Hm Hh w. specialize (Hm w). unfold run, try_except in *.
  destruct (m w) as [[a | e] w1]; simpl in *.
  - exact Hm.
  - rewrite <- Hm. apply (Hh e w1).
Qed.

Lemma keeps_for_each {A : Type} (l : list A) (body : A -> M unit) :
  (forall x, keeps f (body x)) -> keeps f (for_each l body).
Proof.
  intros Hb. induction l as [| x r IH]; simpl.
  - apply keeps_ret.
  - apply keeps_bind; auto.
Qed.

End Rules.

Lemma total_ret {A : Type} (a : A) : total (ret a).
Proof. intros w; now exists a. Qed.

Lemma total_bind {A B : Type} (m : M A) (k : A -> M B) :
  total m -> (forall a, total (k a)) -> total (bind m k).
Proof.
  intros Hm Hk w. destruct (Hm w) as [a Ha]. unfold outcome, bind in *.
  destruct (m w) as [[a' | e] w1]; simpl in *; [| discriminate].
  apply (Hk a' w1).
Qed.

Lemma total_try {A : Type} (m : M A) (h : exn -> M A) :
  (forall e, total (h e)) -> total (try_except m h).
Proof.
  intros Hh w. unfold outcome, try_except.
  destruct (m w) as [[a | e] w1]; simpl.
  - now exists a.
  - apply (Hh e w1).
Qed.

Lemma total_for_each {A : Type} (l : list A) (body : A -> M unit) :
  (forall x, total (body x)) -> total (for_each l body).
Proof.
  intros Hb. induction l as [| x r IH]; simpl.
  - apply total_ret.
  - apply total_bind; auto.
Qed.

Lemma post_bind {A B : Type} (m : M A) (k : A -> M B) (w : World)
      (Q : result B -> World -> Prop) :
  post m w (fun r w' => match r with
                        | Ok a => post (k a) w' Q
                        | Raise e => Q (Raise e) w'
                        end) ->
  post (bind m k) w Q.
Proof.
  unfold post, outcome, run, bind.
  destruct (m w) as [[a | e] w1]; simpl; auto.
Qed.

Lemma post_weaken {A : Type} (m : M A) (w : World) (Q Q' : result A -> World -> Prop) :
  post m w Q -> (forall r w', Q r w' -> Q' r w') -> post m w Q'.
Proof. unfold post; auto. Qed.

Create HintDb keeps.

#[local] Hint Resolve keeps_ret keeps_raise keeps_lift : keeps.
#[local] Hint Resolve total_ret : keeps.

(** The basic operations, by evaluation. *)
Ltac basic :=
  let w := fresh "w" in
  intros w; destruct w;
  unfold run, outcome, untouched, globals, calls_so_far, published_so_far,
    frames_so_far, calls, published, frames;
  cbn;
  rewrite ?filter_app, ?flat_map_app; cbn;
  rewrite ?app_nil_r; solve [reflexivity | eexists; reflexivity].

Ltac structure :=
  repeat first
    [ solve [auto with keeps]
    | apply keeps_bind; [| intros ?]
    | apply keeps_try; [| intros ?]
    | apply keeps_for_each; intros ?
    | apply total_bind; [| intros ?]
    | apply total_try; intros ?
    | apply total_for_each; intros ?
    | progress cbv beta
    | match goal with
      | |- keeps _ (if ?b then _ else _) => destruct b
      | |- keeps _ (match ?x with _ => _ end) => destruct x
      | |- total (if ?b then _ else _) => destruct b
      | |- total (match ?x with _ => _ end) => destruct x
      end
    | solve [basic] ].

(* ===================================================================== *)
(** ** The session operations *)
(* ===================================================================== *)

Lemma ws_open_untouched : keeps untouched ws_open.
Proof. unfold ws_open, print. structure. Qed.

Lemma ws_open_total : total ws_open.
Proof. unfold ws_open, print. structure. Qed.

#[local] Hint Resolve ws_open_untouched ws_open_total : keeps.

Lemma ws_connect_untouched : keeps untouched ws_connect.
Proof. unfold ws_connect. structure. Qed.

Lemma ws_connect_total : total ws_connect.
Proof. unfold ws_connect. structure. Qed.

#[local] Hint Resolve ws_connect_untouched ws_connect_total : keeps.

(** A computation that starts by marking its entry. *)
Lemma entered (e : event) (m : M unit) (w : World) :
  is_call e = true -> message e = [] ->
  total m -> keeps untouched m ->
  exists w', (emit e ;; m) w = (Ok tt, w') /\
             globals w' = globals w /\
             calls_so_far w' = (calls_so_far w ++ [e])%list.
Proof.
  intros Hc Hm Ht Hk.
  unfold bind, emit.
  specialize (Ht (with_event e w)). specialize (Hk (with_event e w)).
  unfold outcome, run in *.
  destruct (m (with_event e w)) as [r w1]; simpl in *.
  destruct Ht as [[] ->]. exists w1. split; [reflexivity |].
  unfold untouched in Hk. apply pair_equal_spec in Hk. destruct Hk as [Hg Hcalls].
  rewrite Hg, Hcalls. split.
  - destruct w; unfold globals, published_so_far, with_event; simpl.
    rewrite published_app; simpl. rewrite Hm, app_nil_r. reflexivity.
  - destruct w; unfold calls_so_far, with_event; simpl.
    rewrite calls_app; simpl. now rewrite Hc.
Qed.

Lemma ensure_server_spec (w : World) :
  exists w', ensure_server w = (Ok tt, w') /\
             globals w' = globals w /\
             calls_so_far w' = (calls_so_far w ++ [EnsureServer])%list.
Proof.
  unfold ensure_server. apply entered; try reflexivity.
  - unfold start_server_once. structure.
  - unfold start_server_once. structure.
Qed.

Lemma ws_send_spec (payload : pyval) (w : World) :
  exists w', ws_send payload w = (Ok tt, w') /\
             globals w' = globals w /\
             calls_so_far w' = (calls_so_far w ++ [WsSend payload])%list.
Proof.
  unfold ws_send. apply entered; try reflexivity.
  - unfold print. structure.
  - unfold print. structure.
Qed.

(** Only [ws_send] gives a command object to the socket, and at most once:
    the transmission is not tried again. *)
Lemma ws_open_keeps_frames : keeps frames_so_far ws_open.
Proof. unfold ws_open, print. structure. Qed.

#[local] Hint Resolve ws_open_keeps_frames : keeps.

Lemma ws_connect_keeps_frames : keeps frames_so_far ws_connect.
Proof. unfold ws_connect. structure. Qed.

#[local] Hint Resolve ws_connect_keeps_frames : keeps.

Lemma ensure_server_keeps_frames : keeps frames_so_far ensure_server.
Proof. unfold ensure_server, start_server_once. structure. Qed.

#[local] Hint Resolve ensure_server_keeps_frames : keeps.

Lemma keeps_adds {A : Type} (p : pyval) (m : M A) :
  keeps frames_so_far m -> adds_at_most p m.
Proof. intros H w. left. apply H. Qed.

Lemma adds_after {A B : Type} (p : pyval) (m : M A) (k : A -> M B) :
  keeps frames_so_far m -> (forall a, adds_at_most p (k a)) ->
  adds_at_most p (bind m k).
Proof.
  intros Hm Hk w. specialize (Hm w). unfold run, bind in *.
  destruct (m w) as [[a | e] w1]; simpl in *.
  - rewrite <- Hm. apply (Hk a w1).
  - now left.
Qed.

Lemma adds_before {A B : Type} (p : pyval) (m : M A) (k : A -> M B) :
  adds_at_most p m -> (forall a, keeps frames_so_far (k a)) ->
  adds_at_most p (bind m k).
Proof.
  intros Hm Hk w. specialize (Hm w). unfold run, bind in *.
  destruct (m w) as [[a | e] w1]; simpl in *.
  - specialize (Hk a w1). unfold run in Hk. now rewrite Hk.
  - exact Hm.
Qed.

Lemma adds_try {A : Type} (p : pyval) (m : M A) (h : exn -> M A) :
  adds_at_most p m -> (forall e, keeps frames_so_far (h e)) ->
  adds_at_most p (try_except m h).
Proof.
  intros Hm Hh w. specialize (Hm w). unfold run, try_except in *.
  destruct (m w) as [[a | e] w1]; simpl in *.
  - exact Hm.
  - specialize (Hh e w1). unfold run in Hh. now rewrite Hh.
Qed.

Lemma ws_send_frames (payload : pyval) : adds_at_most payload (ws_send payload).
Proof.
  unfold ws_send.
  apply adds_after; [structure | intros _].
  apply adds_try; [| intros e; unfold print; structure].
  apply adds_after; [structure | intros h].
  apply adds_after; [structure | intros _].
  apply adds_after; [structure | intros [s |]].
  - apply adds_after; [structure | intros ok].
    apply adds_before.
    + intros w. right. destruct w.
      unfold run, frames_so_far, frames; cbn. now rewrite flat_map_app.
    + intros _. unfold print. structure.
  - apply keeps_adds. unfold print. structure.
Qed.

Lemma post_of_spec {A : Type} (m : M A) (w : World) (a : A) (R : World -> Prop)
      (Q : result A -> World -> Prop) :
  (exists w', m w = (Ok a, w') /\ R w') ->
  (forall w', R w' -> Q (Ok a) w') ->
  post m w Q.
Proof.
  intros (w' & E & HR) HQ. unfold post, outcome, run. rewrite E. simpl. auto.
Qed.

Lemma ensure_server_post (w : World) (Q : result unit -> World -> Prop) :
  (forall w', globals w' = globals w ->
              calls_so_far w' = (calls_so_far w ++ [EnsureServer])%list ->
              Q (Ok tt) w') ->
  post ensure_server w Q.
Proof.
  intros H. eapply post_of_spec; [apply ensure_server_spec |].
  intros w' [Hg Hc]; auto.
Qed.

Lemma ws_send_post (payload : pyval) (w : World) (Q : result unit -> World -> Prop) :
  (forall w', globals w' = globals w ->
              calls_so_far w' = (calls_so_far w ++ [WsSend payload])%list ->
              Q (Ok tt) w') ->
  post (ws_send payload) w Q.
Proof.
  intros H. eapply post_of_spec; [apply ws_send_spec |].
  intros w' [Hg Hc]; auto.
Qed.

Lemma ensure_server_post_frames (w : World) (Q : result unit -> World -> Prop) :
  (forall w', globals w' = globals w ->
              calls_so_far w' = (calls_so_far w ++ [EnsureServer])%list ->
              frames_so_far w' = frames_so_far w ->
              Q (Ok tt) w') ->
  post ensure_server w Q.
Proof.
  intros H.
  pose proof (ensure_server_keeps_frames w) as Hf.
  destruct (ensure_server_spec w) as (w1 & E & Hg & Hc).
  unfold post, outcome, run in *. rewrite E in *. cbn [fst snd] in *. auto.
Qed.

Lemma ws_send_post_frames (payload : pyval) (w : World)
      (Q : result unit -> World -> Prop) :
  (forall w', globals w' = globals w ->
              calls_so_far w' = (calls_so_far w ++ [WsSend payload])%list ->
              (frames_so_far w' = frames_so_far w \/
               frames_so_far w' = (frames_so_far w ++ [payload])%list) ->
              Q (Ok tt) w') ->
  post (ws_send payload) w Q.
Proof.
  intros H.
  pose proof (ws_send_frames payload w) as Hf.
  destruct (ws_send_spec payload w) as (w1 & E & Hg & Hc).
  unfold post, outcome, run in *. rewrite E in *. cbn [fst snd] in *. auto.
Qed.

Lemma ensure_server_keeps_globals : keeps globals ensure_server.
Proof.
  intros w. destruct (ensure_server_spec w) as (w' & E & Hg & _).
  unfold run. now rewrite E.
Qed.

Lemma ws_send_keeps_globals (payload : pyval) : keeps globals (ws_send payload).
Proof.
  intros w. destruct (ws_send_spec payload w) as (w' & E & Hg & _).
  unfold run. now rewrite E.
Qed.

Lemma ensure_server_total : total ensure_server.
Proof.
  intros w. destruct (ensure_server_spec w) as (w' & E & _).
  exists tt. unfold outcome. now rewrite E.
Qed.

Lemma ws_send_total (payload : pyval) : total (ws_send payload).
Proof.
  intros w. destruct (ws_send_spec payload w) as (w' & E & _).
  exists tt. unfold outcome. now rewrite E.
Qed.

#[local] Hint Resolve ensure_server_keeps_globals ws_send_keeps_globals
  ensure_server_total ws_send_total : keeps.

(* ===================================================================== *)
(** ** Publishing *)
(* ===================================================================== *)

Section Publishing.

Variable mac : string.

Lemma publish_loop (l : dict) (w : World) :
  for_each l
    (fun kv =>
       match lookup (fst kv) (TOPICS mac) with
       | Some t =>
           if Text.is_empty t then ret tt
           else publish (t ++ "/state") (Rendered (Py.str (snd kv))) true
       | None => ret tt
       end) w
  = (Ok tt,
     with_events
       (flat_map
          (fun kv =>
             match lookup (fst kv) (TOPICS mac) with
             | Some t =>
                 if Text.is_empty t then []
                 else [Publish (t ++ "/state") (Rendered (Py.str (snd kv))) true]
             | None => []
             end) l) w).
Proof.
  revert w. induction l as [| kv r IH]; intros w.
  - simpl. now rewrite with_events_nil.
  - cbn [for_each flat_map]. unfold bind at 1.
    destruct (lookup (fst kv) (TOPICS mac)) as [t |].
    + destruct (Text.is_empty t).
      * cbn [ret]. rewrite IH. reflexivity.
      * unfold publish, emit. rewrite IH.
        rewrite with_event_events, with_events_app. reflexivity.
    + cbn [ret]. rewrite IH. reflexivity.
Qed.

(** [publish_states] returns, changes nothing in the globals and publishes
    the messages of the stored states and of the text. *)
Lemma publish_states_eq (w : World) :
  publish_states mac w
  = (Ok tt, with_events (state_messages mac (current_states w) (last_text w)) w).
Proof.
  unfold publish_states, state_messages.
  unfold bind at 1. cbn [get_states].
  unfold bind at 1. rewrite publish_loop.
  unfold bind, get_states, get_last_text, publish, emit. cbn.
  f_equal. unfold with_events, with_event; cbn.
  now rewrite <- !app_assoc.
Qed.

Lemma publish_states_total : total (publish_states mac).
Proof. intros w. exists tt. unfold outcome. now rewrite publish_states_eq. Qed.

Lemma publish_states_keeps_states : keeps current_states (publish_states mac).
Proof. intros w. unfold run. now rewrite publish_states_eq. Qed.

Lemma publish_states_keeps_text : keeps last_text (publish_states mac).
Proof. intros w. unfold run. now rewrite publish_states_eq. Qed.

Lemma state_messages_calls (cs : dict) (lt : pyval) :
  calls (state_messages mac cs lt) = [].
Proof.
  unfold state_messages. rewrite calls_app.
  replace (calls [Publish (STATE_TOPIC mac) (Document cs) true;
                  Publish (LAST_TEXT_TOPIC mac) (Given lt) true])
    with (@nil event) by reflexivity.
  rewrite app_nil_r.
  induction cs as [| kv r IH]; [reflexivity |].
  cbn [flat_map]. rewrite calls_app, IH, app_nil_r.
  destruct (lookup (fst kv) (TOPICS mac)) as [t |]; [| reflexivity].
  now destruct (Text.is_empty t).
Qed.

Lemma publish_states_keeps_calls : keeps calls_so_far (publish_states mac).
Proof.
  intros w. unfold run, calls_so_far. rewrite publish_states_eq.
  cbn [snd with_events trace].
  now rewrite calls_app, state_messages_calls, app_nil_r.
Qed.

(** The document of the state is the last one of the messages. *)
Lemma state_messages_snapshot (t : list event) (cs : dict) (lt : pyval) :
  snapshot (t ++ state_messages mac cs lt) = Some cs.
Proof.
  unfold state_messages. rewrite !snapshot_app. reflexivity.
Qed.

(** After the chain of branches, [handle_set_payload] publishes the
    states; what the chain raises goes to the caller. *)
Lemma handle_set_payload_post (key payload : string) (w : World)
      (Q : result unit -> World -> Prop) :
  post (dispatch key (parse_payload payload))
       (with_event (Printed (MqttSet key payload)) w)
       (fun r w1 =>
          match r with
          | Ok _ => Q (Ok tt) (with_events
                                 (state_messages mac (current_states w1) (last_text w1)) w1)
          | Raise e => Q (Raise e) w1
          end) ->
  post (handle_set_payload mac key payload) w Q.
Proof.
  intros H. unfold handle_set_payload.
  apply post_bind. unfold post at 1, outcome, run, print, emit. cbn [fst snd].
  apply post_bind. eapply post_weaken; [exact H |].
  intros [[] | e] w1 HQ; [| exact HQ].
  unfold post, outcome, run. now rewrite publish_states_eq.
Qed.

End Publishing.

#[local] Hint Resolve publish_states_total publish_states_keeps_states
  publish_states_keeps_text publish_states_keeps_calls : keeps.

(* ===================================================================== *)
(** ** The branches of [handle_set_payload] *)
(* ===================================================================== *)

Lemma globals_eq (w w' : World) :
  globals w' = globals w ->
  current_states w' = current_states w /\ last_text w' = last_text w /\
  net w' = net w /\ published_so_far w' = published_so_far w.
Proof.
  unfold globals. intros H.
  apply pair_equal_spec in H; destruct H as [H Hp].
  apply pair_equal_spec in H; destruct H as [H Hn].
  apply pair_equal_spec in H; destruct H as [Hs Ht].
  auto.
Qed.

Ltac open_globals H :=
  let Hs := fresh "Hstates" in
  let Ht := fresh "Htext" in
  let Hn := fresh "Hnet" in
  let Hp := fresh "Hpub" in
  apply globals_eq in H; destruct H as (Hs & Ht & Hn & Hp).

(** One step of a run through a basic operation. *)
Ltac run_basic :=
  apply post_bind; unfold post at 1, outcome, run;
  unfold print, emit, set_last_text, get_last_text, get_states, set_states, lift, ret;
  cbn [fst snd].

(** Printing and assigning leave the observations of the trace alone. *)
Lemma globals_print (l : log) (w : World) : globals (with_event (Printed l) w) = globals w.
Proof.
  destruct w; unfold globals, published_so_far, with_event; cbn.
  rewrite published_app; cbn. now rewrite app_nil_r.
Qed.

Lemma calls_print (l : log) (w : World) :
  calls_so_far (with_event (Printed l) w) = calls_so_far w.
Proof.
  destruct w; unfold calls_so_far, with_event; cbn.
  rewrite calls_app; cbn. now rewrite app_nil_r.
Qed.

Lemma published_print (l : log) (w : World) :
  published_so_far (with_event (Printed l) w) = published_so_far w.
Proof.
  destruct w; unfold published_so_far, with_event; cbn.
  rewrite published_app; cbn. now rewrite app_nil_r.
Qed.

Lemma calls_with_states (d : dict) (w : World) :
  calls_so_far (with_states d w) = calls_so_far w.
Proof. reflexivity. Qed.

Lemma calls_with_last_text (v : pyval) (w : World) :
  calls_so_far (with_last_text v w) = calls_so_far w.
Proof. reflexivity. Qed.

Lemma published_with_states (d : dict) (w : World) :
  published_so_far (with_states d w) = published_so_far w.
Proof. reflexivity. Qed.

Lemma published_with_last_text (v : pyval) (w : World) :
  published_so_far (with_last_text v w) = published_so_far w.
Proof. reflexivity. Qed.

Ltac tidy :=
  repeat progress
    (rewrite ?globals_print, ?calls_print, ?published_print, ?calls_with_states,
       ?calls_with_last_text, ?published_with_states, ?published_with_last_text in *).

(** A key that the chain does not know: nothing is done. *)
Lemma dispatch_ignored (key : string) (data : pyval) (w : World) :
  key <> "set" -> key <> "send_text" -> key <> "power" ->
  Dict.has key (current_states w) = false ->
  dispatch key data w = (Ok tt, w).
Proof.
  intros H1 H2 H3 H4. unfold dispatch, individual.
  apply String.eqb_neq in H1, H2, H3. rewrite H1, H2, H3.
  unfold bind, get_states. rewrite H4. reflexivity.
Qed.

(** The last branch: the value is stored under the key. *)
Lemma dispatch_attribute (key : string) (data : pyval) (w : World) :
  key <> "set" -> key <> "send_text" -> key <> "power" ->
  Dict.has key (current_states w) = true ->
  dispatch key data w
  = (Ok tt, with_event (Printed (MqttUpdated key data))
              (with_states (Dict.set key data (current_states w)) w)).
Proof.
  intros H1 H2 H3 H4. unfold dispatch, individual.
  apply String.eqb_neq in H1, H2, H3. rewrite H1, H2, H3.
  unfold bind, get_states. rewrite H4. reflexivity.
Qed.

(** The power branch. *)
Lemma dispatch_power (data : pyval) (w : World) :
  post (dispatch "power" data) w
    (fun r w' =>
       r = Ok tt /\
       current_states w' = Dict.set "power" (PBool (power_value data)) (current_states w) /\
       last_text w' = last_text w /\
       calls_so_far w'
       = (calls_so_far w ++ [EnsureServer; WsSend (power_command (power_value data))])%list /\
       published_so_far w' = published_so_far w).
Proof.
  unfold dispatch, individual.
  change (String.eqb "power" "set") with false.
  change (String.eqb "power" "send_text") with false.
  change (String.eqb "power" "power") with true.
  cbv iota. fold (power_value data).
  apply post_bind. unfold post at 1, outcome, run, store, bind, get_states, set_states.
  cbn [fst snd].
  apply post_bind. apply ensure_server_post. intros w1 Hg Hc. open_globals Hg.
  apply post_bind. unfold post at 1, outcome, run, bind, get_states, lift.
  cbn [fst snd]. tidy. cbn [current_states last_text with_states] in *.
  rewrite Hstates. unfold Obj.item. rewrite DictFacts.get_set_same. cbn [Py.truthy].
  destruct (power_value data); apply ws_send_post; intros w2 Hg2 Hc2; open_globals Hg2;
    (split; [reflexivity |]); (split; [congruence |]); (split; [congruence |]);
    (split; [| congruence]);
    rewrite Hc2, Hc; now rewrite <- app_assoc.
Qed.

Lemma frames_print (l : log) (w : World) :
  frames_so_far (with_event (Printed l) w) = frames_so_far w.
Proof.
  destruct w; unfold frames_so_far, frames, with_event; cbn.
  rewrite flat_map_app; cbn. now rewrite app_nil_r.
Qed.

Lemma state_messages_frames (mac : string) (cs : dict) (lt : pyval) :
  frames (state_messages mac cs lt) = [].
Proof.
  unfold state_messages, frames. rewrite flat_map_app.
  replace (flat_map framed
             [Publish (STATE_TOPIC mac) (Document cs) true;
              Publish (LAST_TEXT_TOPIC mac) (Given lt) true])
    with (@nil pyval) by reflexivity.
  rewrite app_nil_r.
  induction cs as [| kv r IH]; [reflexivity |].
  cbn [flat_map]. rewrite flat_map_app, IH, app_nil_r.
  destruct (lookup (fst kv) (TOPICS mac)) as [t |]; [| reflexivity].
  now destruct (Text.is_empty t).
Qed.

Lemma frames_with_events (mac : string) (cs : dict) (lt : pyval) (w : World) :
  frames_so_far (with_events (state_messages mac cs lt) w) = frames_so_far w.
Proof.
  unfold frames_so_far; cbn [with_events trace].
  unfold frames at 1. rewrite flat_map_app.
  fold (frames (state_messages mac cs lt)). fold (frames (trace w)).
  now rewrite state_messages_frames, app_nil_r.
Qed.

(** The power branch gives the socket its one command, or nothing when no
    connection could be made. *)
Lemma dispatch_power_frames (data : pyval) (w : World) :
  post (dispatch "power" data) w
    (fun _ w' =>
       frames_so_far w' = frames_so_far w \/
       frames_so_far w'
       = (frames_so_far w ++ [power_command (power_value data)])%list).
Proof.
  unfold dispatch, individual.
  change (String.eqb "power" "set") with false.
  change (String.eqb "power" "send_text") with false.
  change (String.eqb "power" "power") with true.
  cbv iota. fold (power_value data).
  apply post_bind. unfold post at 1, outcome, run, store, bind, get_states, set_states.
  cbn [fst snd].
  apply post_bind. apply ensure_server_post_frames. intros w1 Hg Hc Hf. open_globals Hg.
  apply post_bind. unfold post at 1, outcome, run, bind, get_states, lift.
  cbn [fst snd]. cbn [current_states last_text with_states] in *.
  rewrite Hstates. unfold Obj.item. rewrite DictFacts.get_set_same. cbn [Py.truthy].
  change (frames_so_far
            (with_states (Dict.set "power" (PBool (power_value data)) (current_states w)) w))
    with (frames_so_far w) in Hf.
  destruct (power_value data); apply ws_send_post_frames; intros w2 _ _ Hf2;
    rewrite <- Hf; exact Hf2.
Qed.

(** Off the key [set], or on a payload that is no dict, the chain is that
    of the individual topics. *)
Lemma dispatch_individual (key : string) (data : pyval) :
  String.eqb key "set" = false \/ (forall d, data <> PDict d) ->
  dispatch key data = individual key data.
Proof.
  intros [H | H]; unfold dispatch.
  - now rewrite H.
  - destruct (String.eqb key "set"); [| reflexivity].
    destruct data; try reflexivity. now elim (H d).
Qed.

Lemma keeps_globals_states {A : Type} (m : M A) : keeps globals m -> keeps current_states m.
Proof. intros H w. specialize (H w). apply globals_eq in H. tauto. Qed.

Lemma keeps_globals_text {A : Type} (m : M A) : keeps globals m -> keeps last_text m.
Proof. intros H w. specialize (H w). apply globals_eq in H. tauto. Qed.

Lemma keeps_globals_published {A : Type} (m : M A) :
  keeps globals m -> keeps published_so_far m.
Proof. intros H w. specialize (H w). apply globals_eq in H. tauto. Qed.

Lemma ensure_server_keeps_states : keeps current_states ensure_server.
Proof. apply keeps_globals_states; auto with keeps. Qed.
Lemma ensure_server_keeps_text : keeps last_text ensure_server.
Proof. apply keeps_globals_text; auto with keeps. Qed.
Lemma ensure_server_keeps_published : keeps published_so_far ensure_server.
Proof. apply keeps_globals_published; auto with keeps. Qed.
Lemma ws_send_keeps_states (p : pyval) : keeps current_states (ws_send p).
Proof. apply keeps_globals_states; auto with keeps. Qed.
Lemma ws_send_keeps_text (p : pyval) : keeps last_text (ws_send p).
Proof. apply keeps_globals_text; auto with keeps. Qed.
Lemma ws_send_keeps_published (p : pyval) : keeps published_so_far (ws_send p).
Proof. apply keeps_globals_published; auto with keeps. Qed.

#[local] Hint Resolve ensure_server_keeps_states ensure_server_keeps_text
  ensure_server_keeps_published ws_send_keeps_states ws_send_keeps_text
  ws_send_keeps_published : keeps.

(** *** A dict with command and params *)

Lemma dispatch_structured (d : dict) (cmd params : pyval) (w : World) :
  Dict.get "command" d = Some cmd -> Dict.get "params" d = Some params ->
  dispatch "set" (PDict d) w
  = structured (PDict d) cmd params (with_event (Printed (MqttProcessing (PDict d))) w).
Proof.
  intros H1 H2. unfold dispatch.
  change (String.eqb "set" "set") with true. cbv iota.
  rewrite H1, H2. reflexivity.
Qed.

Lemma structured_keeps_states (data cmd params : pyval) :
  keeps current_states (structured data cmd params).
Proof. unfold structured, send_led_on, send_led_off, print. structure. Qed.

Lemma structured_keeps_published (data cmd params : pyval) :
  keeps published_so_far (structured data cmd params).
Proof. unfold structured, send_led_on, send_led_off, print. structure. Qed.

(** Only a send_text command touches the text. *)
Lemma structured_keeps_text (data cmd params : pyval) :
  Py.eq_str cmd "send_text" = false ->
  keeps last_text (structured data cmd params).
Proof.
  intros H. unfold structured, send_led_on, send_led_off, print. rewrite H.
  cbn [andb]. structure.
Qed.

Lemma first_truthy (params v : pyval) : Obj.first params = Ok v -> Py.truthy params = true.
Proof.
  destruct params as [| b | z | f | s | l | d]; simpl; try discriminate.
  - destruct s; [discriminate | reflexivity].
  - destruct l; [discriminate | reflexivity].
Qed.

(** The fixed command of the led_on and led_off branches goes to
    [ws_send]; [ensure_server] is not entered. *)
Lemma structured_led (data params : pyval) (name : string) (w : World) :
  name = "led_on" \/ name = "led_off" ->
  post (structured data (PStr name) params) w
    (fun r w' =>
       r = Ok tt /\ globals w' = globals w /\
       calls_so_far w' = (calls_so_far w ++ [WsSend (command name [])])%list).
Proof.
  intros [-> | ->]; unfold structured, send_led_on, send_led_off;
    cbn [Py.eq_str String.eqb Ascii.eqb Bool.eqb];
    run_basic; apply post_bind; apply ws_send_post; intros w1 Hg Hc;
    unfold post, outcome, run, print, emit; cbn [fst snd];
    tidy; auto.
Qed.

(** A send_text command whose first param is a string: the text is
    recorded without its [text=] prefix and the dict goes to [ws_send] as it
    is, after [ensure_server]. *)
Lemma structured_send_text (data params : pyval) (t : string) (w : World) :
  Obj.first params = Ok (PStr t) ->
  post (structured data (PStr "send_text") params) w
    (fun r w' =>
       r = Ok tt /\
       current_states w' = current_states w /\
       last_text w' = PStr (if Text.startswith "text=" t then Text.drop 5 t else t) /\
       calls_so_far w' = (calls_so_far w ++ [EnsureServer; WsSend data])%list /\
       published_so_far w' = published_so_far w).
Proof.
  intros H. pose proof (first_truthy _ _ H) as Ht.
  unfold structured. cbn [Py.eq_str String.eqb Ascii.eqb Bool.eqb].
  rewrite Ht. cbn [andb].
  run_basic. run_basic. rewrite H.
  run_basic. cbn [Obj.startswith Obj.from].
  apply post_bind.
  assert (E : forall w0,
             (if Text.startswith "text=" t
              then set_last_text (PStr (Text.drop 5 t))
              else set_last_text (PStr t)) w0
             = (Ok tt, with_last_text
                         (PStr (if Text.startswith "text=" t then Text.drop 5 t else t)) w0))
    by (intros w0; destruct (Text.startswith "text=" t); reflexivity).
  unfold post at 1, outcome, run. rewrite E. cbn [fst snd].
  run_basic. run_basic.
  apply post_bind. apply ensure_server_post. intros w1 Hg Hc. open_globals Hg.
  apply ws_send_post. intros w2 Hg2 Hc2. open_globals Hg2.
  tidy. cbn [current_states last_text with_event with_last_text] in *.
  repeat split; try congruence.
  rewrite Hc2, Hc. now rewrite <- app_assoc.
Qed.

(** A send_text command whose params are true and do not begin with a
    string raises before anything is recorded or sent. *)
Lemma structured_raises (data params : pyval) (w : World) :
  Py.truthy params = true ->
  (forall t, Obj.first params <> Ok (PStr t)) ->
  exists e, structured data (PStr "send_text") params w
            = (Raise e, with_event (Printed (MqttDetected (PStr "send_text"))) w).
Proof.
  intros Ht Hn. unfold structured. cbn [Py.eq_str String.eqb Ascii.eqb Bool.eqb].
  rewrite Ht. cbn [andb].
  unfold bind, print, emit, lift.
  destruct (Obj.first params) as [v | e] eqn:E.
  - destruct v; try (eexists; reflexivity). now elim (Hn s).
  - eexists; reflexivity.
Qed.

(** *** A dict with send_text *)

Lemma update_eq (kv : string * pyval) (w : World) :
  update kv w
  = (Ok tt,
     if Dict.has (fst kv) (current_states w)
     then with_event (Printed (MqttUpdated (fst kv) (snd kv)))
            (with_states (Dict.set (fst kv) (snd kv) (current_states w)) w)
     else w).
Proof.
  unfold update, bind, get_states, store, set_states, print, emit, ret.
  now destruct (Dict.has (fst kv) (current_states w)).
Qed.

Lemma update_loop (d : dict) (w : World) :
  post (for_each d update) w
    (fun r w' =>
       r = Ok tt /\
       current_states w' = merge d (current_states w) /\
       last_text w' = last_text w /\
       calls_so_far w' = calls_so_far w /\
       published_so_far w' = published_so_far w).
Proof.
  revert w. induction d as [| kv r IH]; intros w.
  - unfold post, outcome, run; cbn. auto.
  - cbn [for_each]. apply post_bind.
    unfold post at 1, outcome, run. rewrite update_eq. cbn [fst snd].
    eapply post_weaken; [apply IH |].
    intros res w' (Hr & Hs & Ht & Hc & Hp).
    unfold merge; cbn [fold_left]. fold (merge r).
    destruct (Dict.has (fst kv) (current_states w)); tidy;
      cbn [current_states last_text with_event with_states] in *; auto.
Qed.

Lemma merge_keys (d cs : dict) : Dict.keys (merge d cs) = Dict.keys cs.
Proof.
  revert cs. induction d as [| kv r IH]; intros cs; [reflexivity |].
  unfold merge; cbn [fold_left]. fold (merge r).
  destruct (Dict.has (fst kv) cs) eqn:E; rewrite IH; [| reflexivity].
  now apply DictFacts.keys_set.
Qed.

Lemma dispatch_flat_eq (d : dict) (text : pyval) (w : World) :
  Dict.get "command" d = None \/ Dict.get "params" d = None ->
  Dict.get "send_text" d = Some text ->
  dispatch "set" (PDict d) w
  = flat d text (with_event (Printed (MqttProcessing (PDict d))) w).
Proof.
  intros H Ht. unfold dispatch.
  change (String.eqb "set" "set") with true. cbv iota. rewrite Ht.
  destruct H as [-> | ->]; [reflexivity |].
  now destruct (Dict.get "command" d).
Qed.

Lemma flat_post (d : dict) (text : pyval) (w : World) :
  post (flat d text) w
    (fun r w' =>
       r = Ok tt /\
       current_states w' = merge d (current_states w) /\
       last_text w' = text /\
       calls_so_far w'
       = (calls_so_far w
          ++ [EnsureServer;
              WsSend (command "send_text"
                        (flat_params d (merge d (current_states w)) text))])%list /\
       published_so_far w' = published_so_far w).
Proof.
  unfold flat. run_basic. run_basic.
  apply post_bind. eapply post_weaken; [apply update_loop |].
  intros r w1 (-> & Hs & Ht & Hc & Hp).
  tidy. cbn [current_states last_text with_event with_last_text] in *.
  run_basic. run_basic. rewrite Hs, Ht. run_basic.
  apply post_bind. apply ensure_server_post. intros w2 Hg2 Hc2. open_globals Hg2.
  apply ws_send_post. intros w3 Hg3 Hc3. open_globals Hg3.
  tidy. cbn [current_states last_text with_event] in *.
  repeat split; try congruence.
  rewrite Hc3, Hc2, Hc. now rewrite <- app_assoc.
Qed.

Lemma fold_left_head {A K : Type} (F : list A -> K -> list A) :
  (forall params k, F params k = params \/ exists x, F params k = (params ++ [x])%list) ->
  forall (l : list K) (t : A) (acc : list A),
    exists rest, fold_left F l (t :: acc) = t :: rest.
Proof.
  intros HF l t. induction l as [| k r IH]; intros acc; cbn [fold_left].
  - now exists acc.
  - destruct (HF (t :: acc) k) as [-> | [x ->]]; [apply IH |].
    apply (IH (acc ++ [x])%list).
Qed.

(** The params of the flat dialect begin with the text. *)
Lemma flat_params_head (d cs : dict) (text : pyval) :
  exists rest, flat_params d cs text = text :: rest.
Proof.
  unfold flat_params. apply fold_left_head. intros params k.
  destruct (Dict.get k d) as [v |].
  - destruct (negb (Py.is_none v)); [right; eauto |].
    destruct (Dict.get k cs) as [v' |]; [| now left].
    destruct (Py.is_none v'); [now left | right; eauto].
  - destruct (Dict.get k cs) as [v' |]; [| now left].
    destruct (Py.is_none v'); [now left | right; eauto].
Qed.

(* ===================================================================== *)
(** ** The keys of the stored states *)
(* ===================================================================== *)

Lemma individual_keys (key : string) (data : pyval) (w : World) :
  Dict.has "power" (current_states w) = true ->
  Dict.keys (current_states (run (individual key data) w))
  = Dict.keys (current_states w).
Proof.
  intros Hp. destruct (String.eqb key "power") eqn:E2.
  - apply String.eqb_eq in E2; subst key.
    pose proof (dispatch_power data w) as P.
    rewrite dispatch_individual in P by (left; reflexivity).
    destruct P as (_ & Hs & _). rewrite Hs. now apply DictFacts.keys_set.
  - unfold individual. rewrite E2.
    destruct (String.eqb key "send_text").
    + match goal with
      | |- context [run ?m w] => assert (K : keeps current_states m) by structure
      end.
      now rewrite K.
    + unfold run, bind, get_states.
      destruct (Dict.has key (current_states w)) eqn:E; [| reflexivity].
      cbn. now apply DictFacts.keys_set.
Qed.

Lemma dispatch_keys (key : string) (data : pyval) (w : World) :
  Dict.has "power" (current_states w) = true ->
  Dict.keys (current_states (run (dispatch key data) w))
  = Dict.keys (current_states w).
Proof.
  intros Hp. destruct (String.eqb key "set") eqn:E.
  - apply String.eqb_eq in E; subst key.
    destruct data as [| b | z | f | s | l | d];
      try (rewrite dispatch_individual by (right; intros; discriminate);
           now apply individual_keys).
    destruct (Dict.get "command" d) as [cmd |] eqn:Ec;
      [destruct (Dict.get "params" d) as [params |] eqn:Ep |].
    + unfold run. rewrite (dispatch_structured d cmd params w Ec Ep).
      pose proof (structured_keeps_states (PDict d) cmd params
                    (with_event (Printed (MqttProcessing (PDict d))) w)) as K.
      unfold run in K. now rewrite K.
    + destruct (Dict.get "send_text" d) as [text |] eqn:Et.
      * unfold run. rewrite (dispatch_flat_eq d text w (or_intror Ep) Et).
        destruct (flat_post d text (with_event (Printed (MqttProcessing (PDict d))) w))
          as (_ & Hs & _).
        unfold run in Hs. rewrite Hs. apply merge_keys.
      * unfold run, dispatch. change (String.eqb "set" "set") with true. cbv iota.
        rewrite Ec, Ep, Et. reflexivity.
    + destruct (Dict.get "send_text" d) as [text |] eqn:Et.
      * unfold run. rewrite (dispatch_flat_eq d text w (or_introl Ec) Et).
        destruct (flat_post d text (with_event (Printed (MqttProcessing (PDict d))) w))
          as (_ & Hs & _).
        unfold run in Hs. rewrite Hs. apply merge_keys.
      * unfold run, dispatch. change (String.eqb "set" "set") with true. cbv iota.
        rewrite Ec, Et. reflexivity.
  - rewrite dispatch_individual by now left. now apply individual_keys.
Qed.

(** A message changes no key of the stored states, whether its handling
    returns or raises. *)
Lemma handle_set_payload_keys (mac key payload : string) (w : World) :
  Dict.has "power" (current_states w) = true ->
  Dict.keys (current_states (run (handle_set_payload mac key payload) w))
  = Dict.keys (current_states w).
Proof.
  intros Hp.
  change (post (handle_set_payload mac key payload) w
            (fun _ w' => Dict.keys (current_states w') = Dict.keys (current_states w))).
  apply handle_set_payload_post. unfold post.
  pose proof (dispatch_keys key (parse_payload payload)
                (with_event (Printed (MqttSet key payload)) w) Hp) as K.
  destruct (outcome (dispatch key (parse_payload payload))
              (with_event (Printed (MqttSet key payload)) w)); exact K.
Qed.

Lemma on_message_keys (mac topic payload : string) (w : World) :
  Dict.has "power" (current_states w) = true ->
  Dict.keys (current_states (run (on_message mac topic payload) w))
  = Dict.keys (current_states w).
Proof.
  intros Hp. unfold on_message, run, bind, print, emit.
  repeat match goal with
         | |- context [if ?b then _ else _] => destruct b
         | |- context [match ?x with Some _ => _ | None => _ end] => destruct x
         end;
    try reflexivity;
    exact (handle_set_payload_keys mac _ payload
             (with_event (Printed (MqttReceived topic payload)) w) Hp).
Qed.

Lemma defaults_power (cs : dict) :
  Dict.keys cs = Dict.keys DEFAULTS -> Dict.has "power" cs = true.
Proof. intros H. apply DictFacts.has_In. rewrite H. simpl; auto. Qed.

Lemma on_connect_keeps_states (mac : string) : keeps current_states (on_connect mac).
Proof. unfold on_connect, print. structure. Qed.

(* ===================================================================== *)
(** ** From the topic to the key *)
(* ===================================================================== *)

Section Topics.

Variable mac : string.

(** The base command topic resolves to the key [set]. *)
Lemma on_message_command_topic (payload : string) (w : World) :
  on_message mac (CMD_TOPIC mac) payload w
  = handle_set_payload mac "set" payload
      (with_event (Printed (MqttReceived (CMD_TOPIC mac) payload)) w).
Proof.
  unfold on_message, bind at 1, print, emit. now rewrite String.eqb_refl.
Qed.

(** A subtopic of the command topic resolves to what follows the slash,
    whatever it is. *)
Lemma on_message_subtopic (key payload : string) (w : World) :
  on_message mac (CMD_TOPIC mac ++ "/" ++ key) payload w
  = handle_set_payload mac key payload
      (with_event (Printed (MqttReceived (CMD_TOPIC mac ++ "/" ++ key) payload)) w).
Proof.
  unfold on_message, bind at 1, print, emit.
  change ("/" ++ key) with (String "/"%char key).
  rewrite TextFacts.eqb_append_nonempty, TextFacts.startswith_next.
  unfold subtopic. now rewrite TextFacts.drop_append_next.
Qed.

(** The set topic of an entry of [TOPICS] resolves to its key. *)
Lemma on_message_set_topic (k payload : string) (w : World) :
  In k topic_names ->
  on_message mac (set_topic mac k) payload w
  = handle_set_payload mac k payload
      (with_event (Printed (MqttReceived (set_topic mac k) payload)) w).
Proof.
  intros Hk. unfold on_message, bind at 1, print, emit.
  unfold set_topic, CMD_TOPIC, TOPICS, topic_names.
  generalize (BASE_TOPIC mac) as B. intros B.
  cbn [List.map find_set_topic].
  unfold Text.startswith.
  rewrite !TextFacts.append_assoc. cbn [String.append].
  simpl in Hk.
  repeat (destruct Hk as [<- | Hk];
          [ cbn [String.append];
            rewrite !TextFacts.eqb_append_l, !TextFacts.prefix_append_l;
            reflexivity |]).
  contradiction.
Qed.

End Topics.

(* ===================================================================== *)
(** ** A message, from the callback to the publication *)
(* ===================================================================== *)

Lemma sends_from_calls (w w' : World) (c : list event) :
  calls_so_far w' = (calls_so_far w ++ c)%list ->
  sends (trace w') = (sends (trace w) ++ sends c)%list.
Proof.
  unfold calls_so_far. intros H.
  rewrite (sends_calls (trace w')), H, sends_app, <- sends_calls. reflexivity.
Qed.

Lemma calls_with_events (mac : string) (cs : dict) (lt : pyval) (w : World) :
  calls_so_far (with_events (state_messages mac cs lt) w) = calls_so_far w.
Proof.
  unfold calls_so_far; cbn [with_events trace].
  now rewrite calls_app, state_messages_calls, app_nil_r.
Qed.

Lemma published_with_events (l : list event) (w : World) :
  published_so_far (with_events l w) = (published_so_far w ++ published l)%list.
Proof. unfold published_so_far; cbn [with_events trace]. apply published_app. Qed.

(** When the chain of branches returns, so does [handle_set_payload], with
    the states and the text the chain left, the session operations the
    chain entered, and one publication of these states more. *)
Lemma handled (mac key payload : string) (w : World)
      (cs' : dict) (lt' : pyval) (c : list event) :
  post (dispatch key (parse_payload payload))
       (with_event (Printed (MqttSet key payload)) w)
       (fun r w1 =>
          r = Ok tt /\ current_states w1 = cs' /\ last_text w1 = lt' /\
          calls_so_far w1 = (calls_so_far w ++ c)%list /\
          published_so_far w1 = published_so_far w) ->
  post (handle_set_payload mac key payload) w
       (fun r w' =>
          r = Ok tt /\ current_states w' = cs' /\ last_text w' = lt' /\
          calls_so_far w' = (calls_so_far w ++ c)%list /\
          published_so_far w'
          = (published_so_far w ++ published (state_messages mac cs' lt'))%list /\
          snapshot (trace w') = Some cs').
Proof.
  intros H. apply handle_set_payload_post.
  eapply post_weaken; [exact H |].
  intros r w1 (-> & Hs & Ht & Hc & Hp).
  rewrite Hs, Ht, calls_with_events, published_with_events, Hc, Hp.
  cbn [with_events trace current_states last_text].
  rewrite state_messages_snapshot. auto 10.
Qed.

(** The same through [on_message], on the set topic of an entry of
    [TOPICS]. *)
Lemma received (mac k payload : string) (w : World)
      (Q : result unit -> World -> Prop) :
  In k topic_names ->
  post (handle_set_payload mac k payload)
       (with_event (Printed (MqttReceived (set_topic mac k) payload)) w) Q ->
  post (on_message mac (set_topic mac k) payload) w Q.
Proof.
  intros Hk H. unfold post, outcome, run in *.
  now rewrite on_message_set_topic.
Qed.

(* ===================================================================== *)
(** ** Properties of the bridge *)
(* ===================================================================== *)

(** Two runs from the globals as loaded.  With the network down,
    [ensure_server] tries, starts the server and tries again; with the
    network up, a message ON on the set topic of power connects, sends a
    blank text and publishes. *)
Example ensure_server_respawns :
  trace (run ensure_server (initial down))
  = [EnsureServer; Connect 0 false; Printed WsConnectFailed; Spawn;
     Connect 1 false; Printed WsConnectFailed].
Proof. reflexivity. Qed.

Example power_on_from_loaded :
  let w' := run (on_message example_mac (set_topic example_mac "power") "ON")
                (initial up) in
  calls (trace w') = [EnsureServer; WsSend (command "send_text" [PStr " "])] /\
  frames (trace w') = [command "send_text" [PStr " "]] /\
  stored_power w' = Some (PBool true) /\
  snapshot (trace w') = Some (Dict.set "power" (PBool true) DEFAULTS).
Proof. vm_compute. repeat split. Qed.

Lemma parse_hello_structured :
  parse_payload hello_structured
  = PDict [("command", PStr "send_text");
           ("params", PList [PStr "text=Hello"; PStr "color=ff0000"])].
Proof. vm_compute. reflexivity. Qed.

Lemma parse_hello_flat :
  parse_payload hello_flat
  = PDict [("send_text", PStr "Hello"); ("color", PStr "ff0000")].
Proof. vm_compute. reflexivity. Qed.

Lemma parse_loaded (payload : string) (v : pyval) :
  Json.loads payload = Some v -> parse_payload payload = v.
Proof. unfold parse_payload. now intros ->. Qed.

(** *** The two dialects of the text command *)



(** *** A dict with command and params *)




(** *** A failed transmission *)




(** The socket is dropped by the next [ws_connect], when its probe
    fails. *)
Lemma ws_connect_drops_dead_socket (w : World) (s : nat) :
  ws w = Some s -> net w (clock w) = false ->
  exists rest,
    trace (run ws_connect w) = (trace w ++ Probe s false :: Close s :: rest)%list /\
    ws (run ws_connect w)
    = if net w (S (clock w)) then Some (sockets w) else None.
Proof.
  destruct w as [cs lt h n nt c tr]; cbn [ws net clock sockets trace].
  intros -> Hn.
  unfold run, ws_connect, ws_open, bind, get_ws, attempt, print, emit, set_ws,
    new_socket, ret, with_event, with_ws; cbn.
  rewrite Hn; cbn.
  destruct (nt (S c)); cbn; eexists; (split; [| reflexivity]);
    rewrite <- !app_assoc; cbn; reflexivity.
Qed.

(** *** Power *)



Lemma power_stored (mac payload : string) (w : World) :
  stored_power (run (on_message mac (set_topic mac "power") payload) w)
  = Some (PBool (power_value (parse_payload payload))).
Proof.
  change (post (on_message mac (set_topic mac "power") payload) w
            (fun _ w' =>
               stored_power w' = Some (PBool (power_value (parse_payload payload))))).
  apply received; [simpl; auto |].
  eapply post_weaken.
  - apply handled. eapply post_weaken; [apply dispatch_power |].
    intros r w1 (Hr & Hs & Ht & Hc & Hp). tidy.
    cbn [current_states last_text with_event] in *.
    exact (conj Hr (conj Hs (conj Ht (conj Hc Hp)))).
  - cbv beta. intros r w' (_ & Hs & _).
    unfold stored_power. rewrite Hs. apply DictFacts.get_set_same.
Qed.

(** C5 (as the program has it).  After a message on the set topic of power,
    power is stored true exactly when the decoded payload (the payload itself
    when it is no JSON document), printed by [str] and uppercased, is one of
    ON, 1, TRUE.  Each of on, ON, 1, true, TRUE is stored as true. *)
Theorem power_follows_uppercased_text (mac payload : string) (w : World) :
  (stored_power (run (on_message mac (set_topic mac "power") payload) w) = Some (PBool true)
   <-> In (Text.upper (Py.str (parse_payload payload))) ["ON"; "1"; "TRUE"]) /\
  (stored_power (run (on_message mac (set_topic mac "power") payload) w) = Some (PBool false)
   <-> ~ In (Text.upper (Py.str (parse_payload payload))) ["ON"; "1"; "TRUE"]) /\
  Forall
    (fun token =>
       stored_power (run (on_message mac (set_topic mac "power") token) w)
       = Some (PBool true))
    power_tokens.
Proof.
  assert (A : forall x, Text.among x ["ON"; "1"; "TRUE"] = true
                        <-> In x ["ON"; "1"; "TRUE"]).
  { intros x. simpl. rewrite !orb_true_iff, !String.eqb_eq.
    split; intros H; intuition (auto; try discriminate). }
  split; [| split].
  - rewrite power_stored, <- A. unfold power_value.
    split; [intros H; congruence | intros ->; reflexivity].
  - rewrite power_stored, <- A. unfold power_value.
    destruct (Text.among _ _); split; intros H; try reflexivity;
      try discriminate; now elim H.
  - unfold power_tokens. repeat constructor; rewrite power_stored; reflexivity.
Qed.

(** The text On is none of the five tokens and is stored as true. *)
Lemma power_true_for_other_casing :
  ~ power_true_only_for_tokens example_mac (initial up) "On".
Proof.
  unfold power_true_only_for_tokens. intros [H _].
  assert (E : stored_power
                (run (on_message example_mac (set_topic example_mac "power") "On")
                   (initial up)) = Some (PBool true))
    by (rewrite power_stored; reflexivity).
  specialize (H E). simpl in H.
  repeat (destruct H as [H | H]; [discriminate |]). exact H.
Qed.

(** *** Plain attributes *)

Lemma plain_attribute_is_topic (a : string) : In a plain_attributes -> In a topic_names.
Proof.
  unfold plain_attributes, topic_names. simpl. intuition.
Qed.

Lemma plain_attribute_is_plain (a : string) :
  In a plain_attributes -> a <> "set" /\ a <> "send_text" /\ a <> "power".
Proof.
  unfold plain_attributes. simpl.
  intros H. repeat (destruct H as [<- | H]; [repeat split; discriminate |]).
  contradiction.
Qed.



(** *** Params of the wrong type *)

(** C7 (the program departs from it).  The payload
    {"command":"send_text","params":[1]} on the key [set] makes
    [handle_set_payload] raise AttributeError to its caller, from any
    world: the first param is no string and has no [startswith].  Nothing
    is published. *)
Theorem ill_typed_params_raise (mac : string) (w : World) :
  outcome (handle_set_payload mac "set" send_text_number) w = Raise AttributeError /\
  published (trace (run (handle_set_payload mac "set" send_text_number) w))
  = published (trace w).
Proof.
  assert (P : parse_payload send_text_number
              = PDict [("command", PStr "send_text"); ("params", PList [PInt 1])])
    by (vm_compute; reflexivity).
  change (post (handle_set_payload mac "set" send_text_number) w
            (fun r w' => r = Raise AttributeError /\
                         published (trace w') = published (trace w))).
  apply handle_set_payload_post. rewrite P.
  unfold post, outcome, run.
  rewrite (dispatch_structured _ (PStr "send_text") (PList [PInt 1]))
    by reflexivity.
  cbn. split; [reflexivity |].
  rewrite !published_app. cbn. now rewrite !app_nil_r.
Qed.

(** *** Unknown keys *)



(** *** The keys of the stored states *)

Lemma reachable_keys (mac : string) (w : World) :
  reachable mac w -> Dict.keys (current_states w) = Dict.keys DEFAULTS.
Proof.
  induction 1 as [net | w topic payload _ IH | w _ IH | w _ IH | w _ IH].
  - reflexivity.
  - rewrite on_message_keys; [exact IH | now apply defaults_power].
  - now rewrite on_connect_keeps_states.
  - now rewrite publish_states_keeps_states.
  - now rewrite ensure_server_keeps_states.
Qed.

(** C9.  In every world the program can reach from the defaults, the
    stored states have the keys of the defaults, in their order; and
    handling a message, for any key and payload and whether it returns or
    raises, leaves them so, as do the callback on any topic and a publish. *)
Theorem keys_never_change (mac : string) (w : World) :
  reachable mac w ->
  Dict.keys (current_states w) = Dict.keys DEFAULTS /\
  (forall key payload,
      Dict.keys (current_states (run (handle_set_payload mac key payload) w))
      = Dict.keys DEFAULTS) /\
  (forall topic payload,
      Dict.keys (current_states (run (on_message mac topic payload) w))
      = Dict.keys DEFAULTS) /\
  Dict.keys (current_states (run (publish_states mac) w)) = Dict.keys DEFAULTS.
Proof.
  intros R. pose proof (reachable_keys mac w R) as K.
  pose proof (defaults_power _ K) as P.
  split; [exact K |]. split; [| split].
  - intros key payload. now rewrite handle_set_payload_keys.
  - intros topic payload. now rewrite on_message_keys.
  - now rewrite publish_states_keeps_states.
Qed.

Lemma keys_never_change_witness :
  Dict.keys
    (current_states
       (run (handle_set_payload example_mac "set" hello_flat)
          (run (on_message example_mac (set_topic example_mac "power") "ON")
             (initial up))))
  = Dict.keys DEFAULTS.
Proof.
  apply (keys_never_change example_mac
           (run (on_message example_mac (set_topic example_mac "power") "ON") (initial up))).
  apply reach_message. apply reach_initial.
Defined.

(** *** The stored states under a dict with command and params *)

(** C10.  For a payload on the key [set] that decodes to a dict with both
    [command] and [params], handling the message leaves the stored states as
    they were (the stored power with them), whether it returns or raises,
    and leaves the text as it was unless the command is send_text. *)
Theorem structured_leaves_states (mac payload : string) (d : dict)
        (cmd params : pyval) (w : World) :
  Json.loads payload = Some (PDict d) ->
  Dict.get "command" d = Some cmd ->
  Dict.get "params" d = Some params ->
  let w' := run (handle_set_payload mac "set" payload) w in
  current_states w' = current_states w /\
  stored_power w' = stored_power w /\
  (Py.eq_str cmd "send_text" = false -> last_text w' = last_text w).
Proof.
  intros Hl Hc Hp.
  change (post (handle_set_payload mac "set" payload) w
            (fun _ w' =>
               current_states w' = current_states w /\
               stored_power w' = stored_power w /\
               (Py.eq_str cmd "send_text" = false -> last_text w' = last_text w))).
  apply handle_set_payload_post.
  rewrite (parse_loaded _ _ Hl).
  unfold post, outcome, run. rewrite (dispatch_structured d cmd params _ Hc Hp).
  set (w0 := with_event (Printed (MqttProcessing (PDict d)))
               (with_event (Printed (MqttSet "set" payload)) w)).
  pose proof (structured_keeps_states (PDict d) cmd params w0) as Ks.
  assert (Kt : Py.eq_str cmd "send_text" = false ->
               last_text (run (structured (PDict d) cmd params) w0) = last_text w)
    by (intros Hn; now rewrite (structured_keeps_text (PDict d) cmd params Hn w0)).
  unfold run in Ks, Kt. unfold stored_power.
  destruct (structured (PDict d) cmd params w0) as [[[] | e] w1];
    cbn [fst snd with_events current_states last_text] in *;
    rewrite Ks; auto.
Qed.

Lemma structured_leaves_states_witness :
  stored_power (run (handle_set_payload example_mac "set" led_off_plain) (lit up))
  = Some (PBool true).
Proof.
  destruct (structured_leaves_states example_mac led_off_plain
              [("command", PStr "led_off"); ("params", PList [])]
              (PStr "led_off") (PList []) (lit up)
              eq_refl eq_refl eq_refl)
    as (_ & Hp & _).
  rewrite Hp. reflexivity.
Defined.

(* ===================================================================== *)
(** ** The session, further *)
(* ===================================================================== *)

Ltac unfold_session :=
  unfold run, outcome, ensure_server, start_server_once, ws_send, ws_connect, ws_open,
    try_except, bind, print, emit, get_ws, set_ws, new_socket, attempt, raise, ret,
    lift, with_event, with_ws in *.

Ltac split_net nt c :=
  destruct (nt c) eqn:?; cbn;
  destruct (nt (S c)) eqn:?; cbn;
  destruct (nt (S (S c))) eqn:?; cbn.

Ltac split_report :=
  repeat (match goal with
          | |- context [Obj.get ?p ?k] => destruct (Obj.get p k) eqn:?
          | |- context [Obj.item ?p ?k] => destruct (Obj.item p k) eqn:?
          | |- context [Obj.first ?p] => destruct (Obj.first p) eqn:?
          | |- context [Py.eq_str ?a ?b] => destruct (Py.eq_str a b) eqn:?
          end; cbn).

Ltac count :=
  unfold frames_so_far, calls_so_far, published_so_far,
    spawns, closes, probes, opens, delivered, frames, printed, subscriptions,
    calls, sends, published in *;
  cbn [trace ws sockets clock net current_states last_text fst snd] in *;
  repeat rewrite ?filter_app, ?flat_map_app, ?length_app in *;
  cbn in *;
  rewrite ?app_nil_r, ?Nat.add_0_r in *.

(** X1.  A socket that answers the ping is kept: [ws_connect] called any
    number of times in a row on a socket whose probes succeed only probes,
    once per call; it opens no socket and leaves the one in hand. *)
Theorem live_socket_is_kept (n : nat) (w : World) (s : nat) :
  ws w = Some s ->
  (forall i, i < n -> net w (clock w + i) = true) ->
  iterate n ws_connect w
  = (Ok tt,
     mkWorld (current_states w) (last_text w) (Some s) (sockets w) (net w)
             (clock w + n) (trace w ++ repeat (Probe s true) n)).
Proof.
  revert w. induction n as [| n IH]; intros w Hs Hn.
  - destruct w; simpl in *; subst. now rewrite Nat.add_0_r, app_nil_r.
  - cbn [iterate]. unfold bind at 1.
    assert (E : ws_connect w
                = (Ok (Some s),
                   mkWorld (current_states w) (last_text w) (Some s) (sockets w) (net w)
                           (S (clock w)) (trace w ++ [Probe s true]))).
    { pose proof (Hn 0 (Nat.lt_0_succ n)) as H0. rewrite Nat.add_0_r in H0.
      destruct w; simpl in *; subst. unfold_session. cbn. now rewrite H0. }
    rewrite E. rewrite IH; cbn [ws clock net current_states last_text sockets trace].
    + f_equal. f_equal; [lia |]. now rewrite <- app_assoc.
    + reflexivity.
    + intros i Hi. replace (S (clock w) + i) with (clock w + S i) by lia.
      apply Hn. lia.
Qed.

Lemma live_socket_is_kept_witness :
  ws (run (iterate 2 ws_connect) (held up)) = Some 0 /\
  opens (trace (run (iterate 2 ws_connect) (held up))) = [] /\
  sockets (run (iterate 2 ws_connect) (held up)) = 1.
Proof.
  pose proof (live_socket_is_kept 2 (held up) 0 eq_refl (fun i _ => eq_refl)) as E.
  unfold run. rewrite E. repeat split.
Defined.

(** X2.  A socket that does not answer the ping is closed and never put
    back: [ws_connect] then opens one new socket and leaves it in [ws] when
    the connection is made, and nothing when it is not.  It returns what it
    leaves in [ws]. *)
Theorem dead_socket_is_replaced (w : World) (s : nat) :
  ws w = Some s -> newest_socket w -> net w (clock w) = false ->
  let w' := run ws_connect w in
  outcome ws_connect w = Ok (ws w') /\
  ws w' = (if net w (S (clock w)) then Some (sockets w) else None) /\
  ws w' <> Some s /\
  closes (trace w') = (closes (trace w) ++ [s])%list /\
  opens (trace w') = (opens (trace w) ++ [(sockets w, net w (S (clock w)))])%list /\
  newest_socket w'.
Proof.
  intros Hs Hnew Hn. specialize (Hnew s Hs).
  destruct w as [cs lt h n nt c tr]; simpl in *; subst.
  unfold newest_socket. unfold_session. cbn. rewrite Hn. cbn.
  destruct (nt (S c)); cbn; count; repeat split; try congruence;
    try (intros E; injection E; lia); intros s' E; congruence.
Qed.

Lemma dead_socket_is_replaced_witness :
  ws (run ws_connect (held (fun n => Nat.eqb n 1))) = Some 1 /\
  closes (trace (run ws_connect (held (fun n => Nat.eqb n 1)))) = [0].
Proof.
  destruct (dead_socket_is_replaced (held (fun n => Nat.eqb n 1)) 0)
    as (_ & Hw & _ & Hc & _).
  - reflexivity.
  - intros s E. injection E as <-. reflexivity.
  - reflexivity.
  - split; [exact Hw | exact Hc].
Defined.

(** X3.  No failure of the websocket library escapes [ensure_server]: it
    returns.  It calls into the library three times at most (a probe and
    two connections), creates two sockets at most and starts the server once
    at most; and it ends without a socket only after having started the
    server. *)
Theorem ensure_server_is_bounded (w : World) :
  let w' := run ensure_server w in
  outcome ensure_server w = Ok tt /\
  clock w' <= clock w + 3 /\
  sockets w' <= sockets w + 2 /\
  spawns (trace w') <= spawns (trace w) + 1 /\
  (ws w' = None -> spawns (trace w') = spawns (trace w) + 1).
Proof.
  destruct w as [cs lt h n nt c tr]. unfold_session. cbn.
  destruct h as [s |]; cbn; split_net nt c; count;
    repeat split; try lia; try discriminate.
Qed.

(** X4.  On a network that is up, [ensure_server] ends with a socket and
    does not start the server; a socket that was in hand is the one it ends
    with, and no other is created. *)
Theorem ensure_server_connects_when_up (w : World) :
  always true w ->
  let w' := run ensure_server w in
  ws w' <> None /\
  spawns (trace w') = spawns (trace w) /\
  (forall s, ws w = Some s -> ws w' = Some s /\ sockets w' = sockets w) /\
  (ws w = None -> ws w' = Some (sockets w)).
Proof.
  intros Hup. destruct w as [cs lt h n nt c tr]. unfold always in Hup. simpl in Hup.
  unfold_session. cbn.
  destruct h as [s |]; cbn; rewrite ?Hup; cbn; count;
    repeat split; intros; congruence.
Qed.

Lemma ensure_server_connects_when_up_witness :
  ws (run ensure_server (initial up)) = Some 0 /\
  spawns (trace (run ensure_server (initial up))) = 0.
Proof.
  destruct (ensure_server_connects_when_up (initial up) (fun n => eq_refl))
    as (_ & Hs & _ & Hn).
  split; [exact (Hn eq_refl) | exact Hs].
Defined.

(** X5.  On a network that is down, [ensure_server] starts the server
    exactly once and tries to connect before and after: it ends without a
    socket, with two failed connections more, and has closed the socket that
    was in hand. *)
Theorem ensure_server_gives_up_when_down (w : World) :
  always false w ->
  let w' := run ensure_server w in
  ws w' = None /\
  spawns (trace w') = spawns (trace w) + 1 /\
  opens (trace w')
  = (opens (trace w) ++ [(sockets w, false); (S (sockets w), false)])%list /\
  closes (trace w')
  = (closes (trace w) ++ match ws w with Some s => [s] | None => [] end)%list.
Proof.
  intros Hdown. destruct w as [cs lt h n nt c tr]. unfold always in Hdown.
  simpl in Hdown. unfold_session. cbn.
  destruct h as [s |]; cbn; repeat (rewrite Hdown; cbn); count;
    repeat split; try lia; now rewrite <- ?app_assoc.
Qed.

Lemma ensure_server_gives_up_when_down_witness :
  ws (run ensure_server stale) = None /\
  spawns (trace (run ensure_server stale)) = 1 /\
  closes (trace (run ensure_server stale)) = [0].
Proof.
  destruct (ensure_server_gives_up_when_down stale (fun n => eq_refl))
    as (Hw & Hs & _ & Hc).
  exact (conj Hw (conj Hs Hc)).
Defined.

(** X6.  [ws_send] never raises, whatever it is given.  It neither starts
    the server nor probes or closes a socket; it calls into the websocket
    library twice at most (one connection when no socket is in hand, one
    transmission), creates one socket at most and gives the socket its
    payload once at most. *)
Theorem ws_send_is_bounded (payload : pyval) (w : World) :
  let w' := run (ws_send payload) w in
  outcome (ws_send payload) w = Ok tt /\
  spawns (trace w') = spawns (trace w) /\
  probes (trace w') = probes (trace w) /\
  closes (trace w') = closes (trace w) /\
  clock w' <= clock w + 2 /\
  sockets w' <= sockets w + 1 /\
  (frames (trace w') = frames (trace w) \/
   frames (trace w') = (frames (trace w) ++ [payload])%list).
Proof.
  destruct w as [cs lt h n nt c tr]. unfold_session. cbn.
  destruct h as [s |]; cbn; split_net nt c; split_report; count;
    repeat split; try lia; auto.
Qed.

(** X7.  What [ws_send] delivers is decided by the socket in hand and the
    next calls into the websocket library: with a socket, the payload is
    delivered exactly when the transmission succeeds; without one, exactly
    when the connection and then the transmission succeed.  Nothing else is
    ever delivered.  Without a socket and without a connection, no socket
    is given anything and the two lines printed say so. *)
Theorem ws_send_delivers_once (payload : pyval) (w : World) :
  let w' := run (ws_send payload) w in
  let ok := match ws w with
            | Some _ => net w (clock w)
            | None => net w (clock w) && net w (S (clock w))
            end in
  delivered (trace w')
  = (delivered (trace w) ++ (if ok then [payload] else []))%list /\
  (ws w = None -> net w (clock w) = false ->
   ws w' = None /\
   frames (trace w') = frames (trace w) /\
   printed (trace w')
   = (printed (trace w) ++ [WsConnectFailed; WsCannotSend])%list).
Proof.
  destruct w as [cs lt h n nt c tr]. unfold_session. cbn.
  destruct h as [s |]; cbn; split_net nt c; split_report; count;
    (split; [reflexivity | intros; try discriminate; rewrite <- ?app_assoc; auto]).
Qed.

Lemma ws_send_delivers_once_witness :
  ws (run (ws_send (command "clear" [])) (initial down)) = None /\
  frames (trace (run (ws_send (command "clear" [])) (initial down))) = [] /\
  printed (trace (run (ws_send (command "clear" [])) (initial down)))
  = [WsConnectFailed; WsCannotSend].
Proof.
  destruct (ws_send_delivers_once (command "clear" []) (initial down)) as [_ H].
  exact (H eq_refl eq_refl).
Defined.

(** X8.  [ensure_server] followed by [ws_send] gets over one failure: when
    every call into the websocket library after the first succeeds, the
    payload is delivered, once, whether a socket was in hand or not and
    whether that first call (the probe, or the first connection) succeeds or
    fails. *)
Theorem send_after_ensure_survives_one_failure (payload : pyval) (w : World) :
  (forall i, net w (clock w + S i) = true) ->
  let w' := run (bind ensure_server (fun _ => ws_send payload)) w in
  delivered (trace w') = (delivered (trace w) ++ [payload])%list /\
  ws w' <> None.
Proof.
  intros Hup.
  pose proof (Hup 0) as H1. pose proof (Hup 1) as H2. pose proof (Hup 2) as H3.
  destruct w as [cs lt h n nt c tr]. cbn [net clock] in *.
  replace (c + 1) with (S c) in H1 by lia.
  replace (c + 2) with (S (S c)) in H2 by lia.
  replace (c + 3) with (S (S (S c))) in H3 by lia.
  unfold_session. cbn.
  destruct h as [s |]; cbn; destruct (nt c); cbn; rewrite ?H1; cbn; rewrite ?H2; cbn;
    rewrite ?H3; cbn; split_report; count;
    (split; [now rewrite <- ?app_assoc | discriminate]).
Qed.

Lemma send_after_ensure_survives_one_failure_witness :
  delivered
    (trace (run (bind ensure_server (fun _ => ws_send (command "clear" [])))
                (held (fun n => negb (Nat.eqb n 0)))))
  = [command "clear" []].
Proof.
  exact (proj1 (send_after_ensure_survives_one_failure
                  (command "clear" []) (held (fun n => negb (Nat.eqb n 0)))
                  (fun i => eq_refl))).
Defined.

(* ===================================================================== *)
(** ** One connection at a time *)
(* ===================================================================== *)

Ltac basic ::=
  let w := fresh "w" in
  intros w; destruct w;
  unfold run, outcome, untouched, globals, calls_so_far, published_so_far,
    frames_so_far, session, counters, spawns, opens, closes, sends, delivered,
    calls, published, frames;
  cbn;
  rewrite ?filter_app, ?flat_map_app, ?length_app; cbn;
  rewrite ?app_nil_r, ?Nat.add_0_r; solve [reflexivity | eexists; reflexivity].

Section Invariants.

Variable I : World -> Prop.

Lemma preserves_bind {A B : Type} (m : M A) (k : A -> M B) :
  preserves I m -> (forall a, preserves I (k a)) -> preserves I (bind m k).
Proof.
  intros Hm Hk w Hw. specialize (Hm w Hw). unfold run, bind in *.
  destruct (m w) as [[a | e] w1]; simpl in *.
  - apply (Hk a w1 Hm).
  - exact Hm.
Qed.

Lemma preserves_try {A : Type} (m : M A) (h : exn -> M A) :
  preserves I m -> (forall e, preserves I (h e)) -> preserves I (try_except m h).
Proof.
  intros Hm Hh w Hw. specialize (Hm w Hw). unfold run, try_except in *.
  destruct (m w) as [[a | e] w1]; simpl in *.
  - exact Hm.
  - apply (Hh e w1 Hm).
Qed.

Lemma preserves_for_each {A : Type} (l : list A) (body : A -> M unit) :
  (forall x, preserves I (body x)) -> preserves I (for_each l body).
Proof.
  intros Hb. induction l as [| x r IH]; simpl.
  - intros w Hw. exact Hw.
  - apply preserves_bind; auto.
Qed.

End Invariants.

Lemma preserves_session {A : Type} (m : M A) :
  keeps session m -> preserves one_connection m.
Proof. intros H w Hw. unfold one_connection. now rewrite H. Qed.

Lemma tidy_open (n : nat) (o : list (nat * bool)) (c : list nat) (ok : bool) :
  tidy (None, n, o, c) ->
  tidy (if ok then Some n else None, S n, (o ++ [(n, ok)])%list, c).
Proof.
  intros (Ha & Hd & _ & Hc). unfold tidy. repeat split.
  - intros s b [H | [H | []]] % in_app_iff.
    + specialize (Ha s b H). lia.
    + injection H as <- _. lia.
  - intros s H. apply in_app_iff. left. now apply Hd.
  - destruct ok; [| discriminate]. injection H as <-.
    apply in_app_iff. right. now left.
  - destruct ok; [| discriminate]. injection H as <-.
    intros H. specialize (Ha _ _ (Hd _ H)). lia.
  - intros s [H | [H | []]] % in_app_iff.
    + destruct (Hc s H) as [E | E]; [discriminate | now right].
    + injection H as <- ->. now left.
Qed.

Lemma tidy_close (s n : nat) (o : list (nat * bool)) (c : list nat) :
  tidy (Some s, n, o, c) -> tidy (None, n, o, (c ++ [s])%list).
Proof.
  intros (Ha & Hd & Hb & Hc). unfold tidy. repeat split.
  - exact Ha.
  - intros s' [H | [<- | []]] % in_app_iff; [now apply Hd |].
    now apply (Hb s eq_refl).
  - discriminate.
  - discriminate.
  - intros s' H. right. apply in_app_iff.
    destruct (Hc s' H) as [E | E]; [injection E as <-; right; now left | now left].
Qed.

Lemma ws_connect_session (w : World) :
  session (run ws_connect w)
  = match ws w with
    | Some s =>
        if net w (clock w) then session w
        else (if net w (S (clock w)) then Some (sockets w) else None,
              S (sockets w),
              (opens (trace w) ++ [(sockets w, net w (S (clock w)))])%list,
              (closes (trace w) ++ [s])%list)
    | None =>
        (if net w (clock w) then Some (sockets w) else None,
         S (sockets w),
         (opens (trace w) ++ [(sockets w, net w (clock w))])%list,
         closes (trace w))
    end.
Proof.
  destruct w as [cs lt h n nt c tr]. unfold session. unfold_session. cbn.
  destruct h as [s |]; cbn; split_net nt c; count; reflexivity.
Qed.

Lemma ws_connect_one_connection : preserves one_connection ws_connect.
Proof.
  intros w Hw. unfold one_connection in *. rewrite ws_connect_session.
  unfold session in *. destruct (ws w) as [s |].
  - destruct (net w (clock w)); [exact Hw |].
    apply tidy_open. now apply tidy_close.
  - now apply tidy_open.
Qed.

Create HintDb session.

#[local] Hint Resolve ws_connect_one_connection : session.

#[local] Arguments flat_params : simpl never.

Ltac no_session m :=
  lazymatch m with
  | context [ensure_server] => fail
  | context [ws_send] => fail
  | context [ws_connect] => fail
  | _ => idtac
  end.

Ltac invariant :=
  repeat first
    [ solve [auto with session]
    | match goal with
      | |- preserves _ ?m => no_session m; apply preserves_session; solve [structure]
      end
    | apply preserves_bind; [| intros ?]
    | apply preserves_try; [| intros ?]
    | apply preserves_for_each; intros ?
    | progress cbv beta zeta
    | match goal with
      | |- preserves _ (if ?b then _ else _) => destruct b
      | |- preserves _ (match ?x with _ => _ end) => destruct x
      end ].

Lemma ensure_server_one_connection : preserves one_connection ensure_server.
Proof. unfold ensure_server, start_server_once. invariant. Qed.

Lemma ws_send_one_connection (payload : pyval) :
  preserves one_connection (ws_send payload).
Proof. unfold ws_send, print. invariant. Qed.

#[local] Hint Resolve ensure_server_one_connection ws_send_one_connection : session.

Lemma publish_states_one_connection (mac : string) :
  preserves one_connection (publish_states mac).
Proof. unfold publish_states, publish. invariant. Qed.

#[local] Hint Resolve publish_states_one_connection : session.

Lemma structured_one_connection (data cmd params : pyval) :
  preserves one_connection (structured data cmd params).
Proof. unfold structured, send_led_on, send_led_off, print. invariant. Qed.

Lemma flat_one_connection (d : dict) (text : pyval) :
  preserves one_connection (flat d text).
Proof. unfold flat, update, store, print. invariant. Qed.

Lemma individual_one_connection (key : string) (data : pyval) :
  preserves one_connection (individual key data).
Proof. unfold individual, store, print. invariant. Qed.

#[local] Hint Resolve structured_one_connection flat_one_connection
  individual_one_connection : session.

Lemma dispatch_one_connection (key : string) (data : pyval) :
  preserves one_connection (dispatch key data).
Proof. unfold dispatch, print. invariant. Qed.

#[local] Hint Resolve dispatch_one_connection : session.

Lemma handle_set_payload_one_connection (mac key payload : string) :
  preserves one_connection (handle_set_payload mac key payload).
Proof. unfold handle_set_payload, print. invariant. Qed.

#[local] Hint Resolve handle_set_payload_one_connection : session.

Lemma on_message_one_connection (mac topic payload : string) :
  preserves one_connection (on_message mac topic payload).
Proof. unfold on_message, print. invariant. Qed.

Lemma on_connect_one_connection (mac : string) :
  preserves one_connection (on_connect mac).
Proof. unfold on_connect, print. invariant. Qed.

(** X9.  One connection at a time.  In every world the bridge reaches from
    the globals as loaded, the socket in [ws] is one whose connection
    succeeded and that has not been closed, and every other socket whose
    connection succeeded has been closed; only connected sockets are
    closed. *)
Theorem one_connection_at_a_time (mac : string) (w : World) :
  reachable mac w ->
  (forall s, ws w = Some s ->
             In (s, true) (opens (trace w)) /\ ~ In s (closes (trace w))) /\
  (forall s, In (s, true) (opens (trace w)) ->
             ws w = Some s \/ In s (closes (trace w))) /\
  (forall s, In s (closes (trace w)) -> In (s, true) (opens (trace w))).
Proof.
  intros H.
  assert (T : one_connection w).
  { induction H.
    - unfold one_connection, session, initial; cbn. repeat split; intros; try easy.
    - now apply on_message_one_connection.
    - now apply on_connect_one_connection.
    - now apply publish_states_one_connection.
    - now apply ensure_server_one_connection. }
  destruct T as (_ & Hd & Hb & Hc). auto.
Qed.

Lemma one_connection_at_a_time_witness :
  In (1, true)
     (opens (trace (run (on_message example_mac (set_topic example_mac "power") "ON")
                        (initial (fun n => Nat.eqb n 1))))) /\
  ~ In 1 (closes (trace (run (on_message example_mac (set_topic example_mac "power") "ON")
                             (initial (fun n => Nat.eqb n 1))))).
Proof.
  destruct (one_connection_at_a_time example_mac
              (run (on_message example_mac (set_topic example_mac "power") "ON")
                   (initial (fun n => Nat.eqb n 1)))
              (reach_message _ _ _ _ (reach_initial _ _))) as (Hb & _ & _).
  assert (E : ws (run (on_message example_mac (set_topic example_mac "power") "ON")
                      (initial (fun n => Nat.eqb n 1))) = Some 1)
    by (vm_compute; reflexivity).
  exact (Hb 1 E).
Defined.

(* ===================================================================== *)
(** ** What a message costs *)
(* ===================================================================== *)

Lemma spends_quiet {A : Type} (a b : nat) (m : M A) :
  keeps counters m -> spends a b m.
Proof.
  intros H w. specialize (H w). unfold counters in H.
  injection H as -> -> -> -> ->. repeat split; lia.
Qed.

Lemma spends_bind {A B : Type} (a b a' b' : nat) (m : M A) (k : A -> M B) :
  spends a b m -> (forall x, spends a' b' (k x)) ->
  spends (a + a') (b + b') (bind m k).
Proof.
  intros Hm Hk w. specialize (Hm w). unfold run, bind in *.
  destruct (m w) as [[x | e] w1]; simpl in *.
  - specialize (Hk x w1). unfold run in Hk.
    destruct Hm as (? & ? & ? & ? & ?). destruct Hk as (? & ? & ? & ? & ?).
    repeat split; lia.
  - destruct Hm as (? & ? & ? & ? & ?). repeat split; lia.
Qed.

Lemma spends_after {A B : Type} (a b : nat) (m : M A) (k : A -> M B) :
  keeps counters m -> (forall x, spends a b (k x)) -> spends a b (bind m k).
Proof. intros Hm Hk. apply (spends_bind 0 0 a b); [now apply spends_quiet | exact Hk]. Qed.

Lemma spends_before {A B : Type} (a b : nat) (m : M A) (k : A -> M B) :
  spends a b m -> (forall x, keeps counters (k x)) -> spends a b (bind m k).
Proof.
  intros Hm Hk. replace a with (a + 0) by lia. replace b with (b + 0) by lia.
  apply spends_bind; [exact Hm | intros x; now apply spends_quiet].
Qed.

Lemma spends_more {A : Type} (a b a' b' : nat) (m : M A) :
  a <= a' -> b <= b' -> spends a b m -> spends a' b' m.
Proof.
  intros Ha Hb H w. destruct (H w) as (? & ? & ? & ? & ?). repeat split; lia.
Qed.

Lemma ensure_server_spends : spends 1 0 ensure_server.
Proof.
  intros w. destruct w as [cs lt h n nt c tr]. unfold_session. cbn.
  destruct h as [s |]; cbn; split_net nt c; count; repeat split; lia.
Qed.

Lemma ws_send_spends (payload : pyval) : spends 0 1 (ws_send payload).
Proof.
  intros w. destruct w as [cs lt h n nt c tr]. unfold_session. cbn.
  destruct h as [s |]; cbn; split_net nt c; split_report; count; repeat split; lia.
Qed.

Lemma ensure_then_send {A : Type} (m : M A) (k : A -> M unit) :
  keeps counters m -> (forall x, spends 0 1 (k x)) ->
  spends 1 1 (bind ensure_server (fun _ => bind m k)).
Proof.
  intros Hm Hk. apply (spends_bind 1 0 0 1); [exact ensure_server_spends |].
  intros _. now apply spends_after.
Qed.

Ltac send_once :=
  apply (spends_more 0 1); [lia | lia | apply ws_send_spends].

Ltac spend :=
  repeat first
    [ match goal with
      | |- spends _ _ (ws_send _) => send_once
      | |- spends _ _ (bind (ws_send _) _) =>
          apply spends_before; [send_once | intros ?; solve [structure]]
      | |- spends _ _ (bind ensure_server _) =>
          apply (spends_bind 1 0 0 1); [exact ensure_server_spends | intros ?]
      | |- spends _ _ ?m => no_session m; apply spends_quiet; solve [structure]
      | |- spends _ _ (bind ?m _) =>
          no_session m; apply spends_after; [solve [structure] | intros ?]
      end
    | progress cbv beta zeta
    | match goal with
      | |- spends _ _ (if ?b then _ else _) => destruct b
      | |- spends _ _ (match ?x with _ => _ end) => destruct x
      end ].

Lemma structured_spends (data cmd params : pyval) :
  spends 1 1 (structured data cmd params).
Proof. unfold structured, send_led_on, send_led_off, print. spend. Qed.

Lemma flat_spends (d : dict) (text : pyval) : spends 1 1 (flat d text).
Proof. unfold flat, update, store, print. spend. Qed.

Lemma individual_spends (key : string) (data : pyval) : spends 1 1 (individual key data).
Proof. unfold individual, store, print. spend. Qed.

Lemma dispatch_spends (key : string) (data : pyval) : spends 1 1 (dispatch key data).
Proof.
  unfold dispatch.
  destruct (String.eqb key "set"); [| apply individual_spends].
  destruct data; try apply individual_spends.
  apply spends_after; [unfold print; structure | intros _].
  destruct (Dict.get "command" _); [destruct (Dict.get "params" _) |];
    try apply structured_spends;
    (destruct (Dict.get "send_text" _); [apply flat_spends | apply spends_quiet; structure]).
Qed.

Lemma handle_set_payload_spends (mac key payload : string) :
  spends 1 1 (handle_set_payload mac key payload).
Proof.
  unfold handle_set_payload.
  apply spends_after; [unfold print; structure | intros _].
  apply spends_before; [apply dispatch_spends | intros _].
  unfold publish_states, publish. structure.
Qed.

(** X10.  What one MQTT message costs, whatever its topic and payload and
    whether it is handled or raises: [ws_send] is entered once at most and
    one command object at most is given to a socket, the server is started
    once at most, three sockets at most are created and the websocket
    library is called five times at most. *)
Theorem message_costs_are_bounded (mac topic payload : string) (w : World) :
  let w' := run (on_message mac topic payload) w in
  List.length (sends (trace w')) <= List.length (sends (trace w)) + 1 /\
  List.length (frames (trace w')) <= List.length (frames (trace w)) + 1 /\
  spawns (trace w') <= spawns (trace w) + 1 /\
  sockets w' <= sockets w + 3 /\
  clock w' <= clock w + 5.
Proof.
  assert (H : spends 1 1 (on_message mac topic payload)).
  { unfold on_message.
    apply spends_after; [unfold print; structure | intros _].
    repeat match goal with
           | |- spends _ _ (if ?b then _ else _) => destruct b
           | |- spends _ _ (match ?x with _ => _ end) => destruct x
           end;
      try apply handle_set_payload_spends.
    apply spends_quiet. structure. }
  destruct (H w) as (? & ? & ? & ? & ?). cbv zeta. repeat split; lia.
Qed.

(* ===================================================================== *)
(** ** The LED helpers and the flat dialect *)
(* ===================================================================== *)

Lemma shown_fold (values : dict) (l : list string) (acc : list pyval) :
  fold_left
    (fun params k =>
       match Dict.get k values with
       | Some v => if Py.is_none v then params else (params ++ [key_value k v])%list
       | None => params
       end) l acc
  = (acc ++ flat_map (shown values) l)%list.
Proof.
  revert acc. induction l as [| k r IH]; intros acc; cbn [fold_left flat_map].
  - now rewrite app_nil_r.
  - rewrite IH. unfold shown at 2.
    destruct (Dict.get k values) as [v |]; [destruct (Py.is_none v) |];
      cbn [app]; rewrite <- ?app_assoc; reflexivity.
Qed.

(** X11.  [send_text_to_led] does nothing at all for a text that is falsy
    (empty, None, zero).  For any other text it enters [ws_send] once, and
    not [ensure_server], with a send_text command whose params are the text
    and then, in the order color, speed, animation, font, matrix_height,
    [k=value] for each of these keywords that is given and is not None;
    other keywords are not forwarded. *)
Theorem send_text_to_led_forwards (text : pyval) (kwargs : dict) (w : World) :
  let w' := run (send_text_to_led text kwargs) w in
  outcome (send_text_to_led text kwargs) w = Ok tt /\
  (if Py.truthy text
   then calls (trace w')
        = (calls (trace w)
           ++ [WsSend (command "send_text"
                         (text :: flat_map (shown kwargs) param_keys))])%list
   else w' = w).
Proof.
  cbv zeta. unfold send_text_to_led. rewrite shown_fold. cbn [app].
  destruct (Py.truthy text); cbn [negb].
  - destruct (ws_send_spec
                (command "send_text" (text :: flat_map (shown kwargs) param_keys)) w)
      as (w' & E & _ & Hc).
    unfold outcome, run. rewrite E. split; [reflexivity | exact Hc].
  - split; reflexivity.
Qed.

Lemma set_keeps_nodup (k : string) (v : pyval) (d : dict) :
  NoDup (Dict.keys d) -> NoDup (Dict.keys (Dict.set k v d)).
Proof.
  intros H. destruct (Dict.has k d) eqn:E.
  - now rewrite DictFacts.keys_set.
  - assert (N : ~ In k (Dict.keys d)).
    { intros C. apply DictFacts.has_In in C. congruence. }
    clear E. induction d as [| [k' v'] r IH]; simpl.
    + constructor; [tauto | constructor].
    + destruct (String.eqb k k') eqn:E'.
      * apply String.eqb_eq in E'. subst. simpl in N. tauto.
      * simpl in *. inversion H; subst. constructor.
        -- intros C.
           assert (S : forall x, In x (Dict.keys (Dict.set k v r)) ->
                                 x = k \/ In x (Dict.keys r)).
           { clear. induction r as [| [k0 v0] r IH]; simpl.
             - intros x [<- | []]. now left.
             - intros x. destruct (String.eqb k k0); simpl; [tauto |].
               intros [<- | H]; [tauto |]. destruct (IH x H); tauto. }
           destruct (S _ C) as [-> | C']; [| tauto].
           rewrite String.eqb_refl in E'. discriminate.
        -- apply IH; tauto.
Qed.

Lemma of_pairs_nodup (l : list (string * pyval)) : NoDup (Dict.keys (Dict.of_pairs l)).
Proof.
  unfold Dict.of_pairs.
  assert (G : forall d, NoDup (Dict.keys d) ->
                        NoDup (Dict.keys
                                 (fold_left (fun d kv => Dict.set (fst kv) (snd kv) d) l d))).
  { induction l as [| kv r IH]; intros d H; cbn [fold_left]; [exact H |].
    apply IH. now apply set_keeps_nodup. }
  apply G. constructor.
Qed.

Lemma literal_no_dict (word : string) (v : pyval) (s : string) (d : dict) (r : string) :
  (forall d', v <> PDict d') -> Json.literal word v s <> Some (PDict d, r).
Proof.
  intros H. unfold Json.literal. destruct (String.prefix word s); [| discriminate].
  intros E. injection E as E _. now apply (H d).
Qed.

Lemma number_no_dict (s : string) (d : dict) (r : string) :
  Json.number s <> Some (PDict d, r).
Proof.
  unfold Json.number. destruct (Json.int_part s) as [[i r0] |]; [| discriminate].
  destruct (Json.optional Json.frac_part r0) as [f r1].
  destruct (Json.optional Json.exp_part r1) as [e r2].
  destruct (Text.is_empty f && Text.is_empty e); discriminate.
Qed.

Lemma scalar_no_dict (s : string) (d : dict) (r : string) :
  Json.scalar s <> Some (PDict d, r).
Proof.
  unfold Json.scalar, Json.first_of.
  repeat match goal with
         | |- match ?x with _ => _ end <> _ =>
             let E := fresh "E" in
             destruct x as [[? ?] |] eqn:E;
             [ intros C; rewrite C in E; revert E;
               first [ apply literal_no_dict; discriminate | apply number_no_dict ] |]
         end.
  apply literal_no_dict. discriminate.
Qed.

Lemma scan_once_dict (fuel : nat) (s : string) (d : dict) (r : string) :
  Json.scan_once fuel s = Json.Parsed (PDict d) r -> NoDup (Dict.keys d).
Proof.
  destruct fuel as [| n]; [discriminate |]. cbn [Json.scan_once].
  destruct s as [| c s']; [discriminate |].
  destruct (Ascii.eqb c Json.dquote).
  { destruct (Json.scanstring s') as [[t r'] |]; discriminate. }
  destruct (Ascii.eqb c "{"%char).
  { destruct (Json.skip_ws s') as [| c1 r1]; [discriminate |].
    destruct (Ascii.eqb c1 "}"%char).
    - intros E. injection E as <- _. constructor.
    - destruct (Ascii.eqb c1 Json.dquote); [| discriminate].
      destruct (Json.members n r1) as [l r2 | |]; try discriminate.
      intros E. injection E as <- _. apply of_pairs_nodup. }
  destruct (Ascii.eqb c "["%char).
  { destruct (Json.skip_ws s') as [| c1 r1]; [discriminate |].
    destruct (Ascii.eqb c1 "]"%char); [discriminate |].
    destruct (Json.elements n (String c1 r1)) as [l r2 | |]; discriminate. }
  destruct (Json.scalar (String c s')) as [[v r'] |] eqn:E; [| discriminate].
  intros C. injection C as -> ->. now apply scalar_no_dict in E.
Qed.

(** A decoded object has each of its keys once. *)
Lemma loads_object_keys (payload : string) (d : dict) :
  Json.loads payload = Some (PDict d) -> NoDup (Dict.keys d).
Proof.
  unfold Json.loads, Json.decode.
  destruct (Json.scan_once (Json.fuel_for payload) (Json.skip_ws payload))
    as [v r | |] eqn:E; try discriminate.
  destruct (Text.is_empty (Json.skip_ws r)); [| discriminate].
  intros C. injection C as ->. now apply scan_once_dict in E.
Qed.

Lemma get_absent (k : string) (d : dict) : ~ In k (Dict.keys d) -> Dict.get k d = None.
Proof.
  intros N. destruct (Dict.get k d) eqn:E; [| reflexivity].
  exfalso. apply N, DictFacts.has_In. unfold Dict.has. now rewrite E.
Qed.

Lemma has_keys (k : string) (a b : dict) :
  Dict.keys a = Dict.keys b -> Dict.has k a = Dict.has k b.
Proof.
  intros H. destruct (Dict.has k b) eqn:E.
  - apply DictFacts.has_In. rewrite H. now apply DictFacts.has_In.
  - destruct (Dict.has k a) eqn:E'; [| reflexivity].
    apply DictFacts.has_In in E'. rewrite H in E'. apply DictFacts.has_In in E'.
    congruence.
Qed.

(** What the loop over the items of the message leaves under each key. *)
Lemma merge_get (k : string) (d cs : dict) :
  NoDup (Dict.keys d) ->
  Dict.get k (merge d cs)
  = if Dict.has k cs
    then match Dict.get k d with Some v => Some v | None => Dict.get k cs end
    else None.
Proof.
  revert cs. induction d as [| [k0 v0] r IH]; intros cs H.
  - unfold merge; cbn. unfold Dict.has. now destruct (Dict.get k cs).
  - inversion H as [| ? ? Hn Hr]; subst.
    change (merge ((k0, v0) :: r) cs)
      with (merge r (if Dict.has k0 cs then Dict.set k0 v0 cs else cs)).
    rewrite (IH _ Hr). cbn [Dict.get].
    destruct (Dict.has k0 cs) eqn:E0.
    + rewrite (has_keys k (Dict.set k0 v0 cs) cs) by now apply DictFacts.keys_set.
      destruct (Dict.has k cs) eqn:E; [| reflexivity].
      destruct (String.eqb k k0) eqn:Ek.
      * apply String.eqb_eq in Ek. subst k0.
        rewrite (get_absent k r Hn). now rewrite DictFacts.get_set_same.
      * apply String.eqb_neq in Ek.
        rewrite (DictFacts.get_set_other k0 k v0 cs Ek). reflexivity.
    + destruct (Dict.has k cs) eqn:E; [| reflexivity].
      destruct (String.eqb k k0) eqn:Ek; [| reflexivity].
      apply String.eqb_eq in Ek. subst k0. congruence.
Qed.

(** The flat dialect, from the payload to what [handle_set_payload]
    leaves. *)
Lemma flat_handled (mac payload : string) (d : dict) (text : pyval) (w : World) :
  Json.loads payload = Some (PDict d) ->
  Dict.get "command" d = None \/ Dict.get "params" d = None ->
  Dict.get "send_text" d = Some text ->
  outcome (handle_set_payload mac "set" payload) w = Ok tt /\
  current_states (run (handle_set_payload mac "set" payload) w)
  = merge d (current_states w) /\
  last_text (run (handle_set_payload mac "set" payload) w) = text /\
  calls (trace (run (handle_set_payload mac "set" payload) w))
  = (calls (trace w)
     ++ [EnsureServer;
         WsSend (command "send_text"
                   (flat_params d (merge d (current_states w)) text))])%list.
Proof.
  intros Hl Hc Ht.
  assert (P : post (handle_set_payload mac "set" payload) w
                (fun r w' =>
                   r = Ok tt /\ current_states w' = merge d (current_states w) /\
                   last_text w' = text /\
                   calls_so_far w'
                   = (calls_so_far w
                      ++ [EnsureServer;
                          WsSend (command "send_text"
                                    (flat_params d (merge d (current_states w)) text))])%list)).
  { eapply post_weaken.
    - apply handled. unfold parse_payload. rewrite Hl.
      unfold post, outcome, run.
      rewrite (dispatch_flat_eq _ text) by assumption.
      match goal with
      | |- context [flat ?d ?t ?w0] => pose proof (flat_post d t w0) as S
      end.
      unfold post, outcome, run in S. tidy.
      cbn [current_states last_text with_event] in S.
      destruct S as (Hr & Hs & Htx & Hcalls & Hpub).
      exact (conj Hr (conj Hs (conj Htx (conj Hcalls Hpub)))).
    - cbv beta. intros r w' (Hr & Hs & Htx & Hcalls & _).
      exact (conj Hr (conj Hs (conj Htx Hcalls))). }
  exact P.
Qed.



Lemma flat_params_shown (d cs : dict) (text : pyval) :
  NoDup (Dict.keys d) ->
  (forall k, In k param_keys -> Dict.has k cs = true) ->
  flat_params d (merge d cs) text
  = text :: flat_map (shown (merge d cs)) param_keys.
Proof.
  intros Hn Hk. unfold flat_params.
  assert (G : forall (l : list string) (acc : list pyval),
             (forall k, In k l -> Dict.has k cs = true) ->
             fold_left
               (fun params k =>
                  match Dict.get k d with
                  | Some v =>
                      if negb (Py.is_none v) then (params ++ [key_value k v])%list
                      else
                        match Dict.get k (merge d cs) with
                        | Some v' =>
                            if Py.is_none v' then params
                            else (params ++ [key_value k v'])%list
                        | None => params
                        end
                  | None =>
                      match Dict.get k (merge d cs) with
                      | Some v' =>
                          if Py.is_none v' then params
                          else (params ++ [key_value k v'])%list
                      | None => params
                      end
                  end) l acc
             = (acc ++ flat_map (shown (merge d cs)) l)%list).
  { induction l as [| k r IH]; intros acc Hl; cbn [fold_left flat_map].
    - now rewrite app_nil_r.
    - rewrite IH by (intros k' Hk'; apply Hl; now right).
      unfold shown at 2.
      rewrite (merge_get k d cs Hn), (Hl k (or_introl eq_refl)).
      destruct (Dict.get k d) as [v |].
      + destruct (Py.is_none v); cbn [negb app]; rewrite <- ?app_assoc; reflexivity.
      + destruct (Dict.get k cs) as [v' |]; [destruct (Py.is_none v') |];
          cbn [app]; rewrite <- ?app_assoc; reflexivity. }
  rewrite (G param_keys [text] Hk). reflexivity.
Qed.



(* ===================================================================== *)
(** ** The topics of the text and of power *)
(* ===================================================================== *)

(** The branch of the key [send_text]. *)
Lemma dispatch_text (data : pyval) (w : World) :
  post (dispatch "send_text" data) w
    (fun r w' =>
       r = Ok tt /\
       current_states w' = current_states w /\
       last_text w' = data /\
       calls_so_far w'
       = (calls_so_far w
          ++ if Py.truthy (match stored_power w with Some v => v | None => PNone end)
             then [EnsureServer; WsSend (command "send_text" [data])]
             else [])%list /\
       published_so_far w' = published_so_far w).
Proof.
  rewrite dispatch_individual by (left; reflexivity).
  unfold individual, stored_power.
  change (String.eqb "send_text" "send_text") with true. cbv iota.
  run_basic. run_basic. cbn [current_states with_last_text].
  destruct (Py.truthy match Dict.get "power" (current_states w) with
                      | Some v => v
                      | None => PNone
                      end).
  - apply post_bind. apply ensure_server_post. intros w1 Hg Hc. open_globals Hg.
    run_basic. rewrite Htext. cbn [last_text with_last_text].
    apply ws_send_post. intros w2 Hg2 Hc2. open_globals Hg2.
    tidy. cbn [current_states last_text with_last_text] in *.
    repeat split; try congruence.
    rewrite Hc2, Hc. now rewrite <- app_assoc.
  - unfold post, outcome, run, ret. cbn [fst snd]. tidy.
    cbn [current_states last_text with_last_text]. rewrite app_nil_r. auto.
Qed.

(** The topic of [TOPICS] under [send_text] resolves to the key
    [send_text]. *)
Lemma on_message_text_topic (mac payload : string) (w : World) :
  on_message mac (BASE_TOPIC mac ++ "/send_text") payload w
  = handle_set_payload mac "send_text" payload
      (with_event (Printed (MqttReceived (BASE_TOPIC mac ++ "/send_text") payload)) w).
Proof.
  unfold on_message, bind at 1, print, emit.
  unfold CMD_TOPIC. generalize (BASE_TOPIC mac) as B. intros B.
  unfold Text.startswith.
  rewrite !TextFacts.append_assoc. cbn [String.append].
  rewrite !TextFacts.eqb_append_l, !TextFacts.prefix_append_l.
  reflexivity.
Qed.





(* ===================================================================== *)
(** ** Topics: what is subscribed, what is handled, what is published *)
(* ===================================================================== *)

Ltac bools :=
  repeat first [progress cbn [orb andb negb] | rewrite orb_true_r | rewrite orb_false_r].

Lemma among_app (x : string) (a b : list string) :
  Text.among x (a ++ b) = Text.among x a || Text.among x b.
Proof.
  induction a as [| y r IH]; simpl; [reflexivity |].
  rewrite IH. now rewrite orb_assoc.
Qed.

(** The last loop of [on_message] finds a key exactly for the set topics. *)
Lemma find_set_topic_among (B topic : string) (l : list string) :
  match find_set_topic topic (List.map (fun k => (k, B ++ "/" ++ k)) l) with
  | Some _ => true
  | None => false
  end
  = Text.among topic (List.map (fun k => (B ++ "/" ++ k) ++ "/set") l).
Proof.
  induction l as [| k r IH]; simpl; [reflexivity |].
  destruct (String.eqb topic ((B ++ String "/" k) ++ "/set")); [reflexivity | exact IH].
Qed.

(** What [on_message] does with a topic, by what the subscriptions
    deliver. *)
Lemma on_message_by_cover (mac topic payload : string) (w : World) :
  if covered mac topic
  then exists key,
      on_message mac topic payload w
      = handle_set_payload mac key payload
          (with_event (Printed (MqttReceived topic payload)) w)
  else only_logged mac topic payload w.
Proof.
  unfold only_logged, covered, subscribed_topics, on_message, bind at 1, print, emit.
  cbn [Text.among]. rewrite among_app. cbn [Text.among].
  destruct (String.eqb topic (CMD_TOPIC mac)) eqn:E1.
  { bools. now exists "set". }
  destruct (Text.startswith (CMD_TOPIC mac ++ "/") topic) eqn:E2.
  { bools. now exists (subtopic mac topic). }
  destruct (String.eqb topic (BASE_TOPIC mac ++ "/send_text")) eqn:E3.
  { bools. now exists "send_text". }
  assert (E4 : String.eqb topic (CMD_TOPIC mac ++ "/#") = false).
  { destruct (String.eqb topic (CMD_TOPIC mac ++ "/#")) eqn:E; [| reflexivity].
    apply String.eqb_eq in E. subst topic.
    change "/" with (String "/"%char EmptyString) in E2.
    change "/#" with (String "/"%char "#") in E2.
    now rewrite TextFacts.startswith_next in E2. }
  rewrite E4. bools.
  pose proof (find_set_topic_among (BASE_TOPIC mac) topic topic_names) as F.
  change (List.map (fun k => (k, BASE_TOPIC mac ++ "/" ++ k)) topic_names)
    with (TOPICS mac) in F.
  change (List.map (fun k => (BASE_TOPIC mac ++ "/" ++ k) ++ "/set") topic_names)
    with (List.map (set_topic mac) topic_names) in F.
  rewrite <- F.
  destruct (find_set_topic topic (TOPICS mac)) as [key |]; [now exists key | reflexivity].
Qed.

Lemma subscribe_loop (l : list (string * string)) (w : World) :
  for_each l (fun kt => emit (Subscribe (snd kt ++ "/set"))) w
  = (Ok tt, with_events (List.map (fun kt => Subscribe (snd kt ++ "/set")) l) w).
Proof.
  revert w. induction l as [| kt r IH]; intros w; cbn [for_each List.map].
  - unfold ret. now rewrite with_events_nil.
  - unfold bind, emit at 1. rewrite IH.
    now rewrite with_event_events, with_events_app.
Qed.

Lemma on_connect_eq (mac : string) (w : World) :
  on_connect mac w
  = publish_states mac
      (with_events
         (Printed MqttConnected :: List.map Subscribe (subscribed_topics mac)) w).
Proof.
  unfold on_connect, print, bind, emit. rewrite subscribe_loop.
  rewrite !with_event_events, !with_events_app. reflexivity.
Qed.


Lemma lookup_topics (B k t : string) (l : list string) :
  lookup k (List.map (fun k => (k, B ++ "/" ++ k)) l) = Some t ->
  In k l /\ t = B ++ "/" ++ k.
Proof.
  induction l as [| k' r IH]; simpl; [discriminate |].
  destruct (String.eqb k k') eqn:E.
  - apply String.eqb_eq in E. subst k'. intros H. injection H as <-. auto.
  - intros H. destruct (IH H). auto.
Qed.

(** The topics of the messages of one [publish_states]. *)
Lemma published_topics (mac : string) (cs : dict) (lt : pyval)
      (t : string) (p : mqtt_payload) (r : bool) :
  In (t, p, r) (published (state_messages mac cs lt)) ->
  (exists k, In k topic_names /\ t = (BASE_TOPIC mac ++ "/" ++ k) ++ "/state") \/
  t = STATE_TOPIC mac \/ t = LAST_TEXT_TOPIC mac.
Proof.
  unfold state_messages. rewrite published_app. intros [H | H] % in_app_iff.
  - left. induction cs as [| kv rest IH]; [contradiction |].
    cbn [flat_map] in H. rewrite published_app in H.
    apply in_app_iff in H. destruct H as [H | H]; [| exact (IH H)].
    destruct (lookup (fst kv) (TOPICS mac)) as [t0 |] eqn:E; [| contradiction].
    destruct (Text.is_empty t0); [contradiction |].
    destruct H as [H | []]. injection H as <- _ _.
    apply lookup_topics in E. destruct E as [Hk ->]. now exists (fst kv).
  - right. destruct H as [H | [H | []]]; injection H as <- _ _; auto.
Qed.

Lemma state_topics_uncovered (mac t : string) :
  (exists k, In k topic_names /\ t = (BASE_TOPIC mac ++ "/" ++ k) ++ "/state") \/
  t = STATE_TOPIC mac \/ t = LAST_TEXT_TOPIC mac ->
  covered mac t = false.
Proof.
  unfold covered, subscribed_topics, set_topic, STATE_TOPIC, LAST_TEXT_TOPIC, CMD_TOPIC,
    Text.startswith, topic_names.
  generalize (BASE_TOPIC mac) as B. intros B H.
  cbn [List.map app Text.among].
  assert (G : forall x : string,
             In x ["/power/state"; "/brightness/state"; "/speed/state";
                   "/animation/state"; "/color/state"; "/font/state";
                   "/matrix_height/state"; "/font_size/state"; "/font_offset_x/state";
                   "/font_offset_y/state"; "/send_text/state"; "/clear/state";
                   "/state"; "/last_text"] ->
             t = B ++ x ->
             String.eqb t (B ++ "/set")
             || (String.eqb t ((B ++ "/set") ++ "/#")
                 || (String.eqb t ((B ++ "/" ++ "power") ++ "/set")
                 || (String.eqb t ((B ++ "/" ++ "brightness") ++ "/set")
                 || (String.eqb t ((B ++ "/" ++ "speed") ++ "/set")
                 || (String.eqb t ((B ++ "/" ++ "animation") ++ "/set")
                 || (String.eqb t ((B ++ "/" ++ "color") ++ "/set")
                 || (String.eqb t ((B ++ "/" ++ "font") ++ "/set")
                 || (String.eqb t ((B ++ "/" ++ "matrix_height") ++ "/set")
                 || (String.eqb t ((B ++ "/" ++ "font_size") ++ "/set")
                 || (String.eqb t ((B ++ "/" ++ "font_offset_x") ++ "/set")
                 || (String.eqb t ((B ++ "/" ++ "font_offset_y") ++ "/set")
                 || (String.eqb t ((B ++ "/" ++ "send_text") ++ "/set")
                 || (String.eqb t ((B ++ "/" ++ "clear") ++ "/set")
                 || (String.eqb t (B ++ "/send_text") || false))))))))))))))
             || String.prefix ((B ++ "/set") ++ "/") t = false).
  { intros x Hx ->. rewrite !TextFacts.append_assoc. cbn [String.append].
    rewrite !TextFacts.eqb_append_l, !TextFacts.prefix_append_l.
    simpl in Hx.
    repeat (destruct Hx as [<- | Hx]; [reflexivity |]). contradiction. }
  destruct H as [(k & Hk & ->) | [-> | ->]].
  - simpl in Hk.
    repeat (destruct Hk as [<- | Hk];
            [ eapply G; [| rewrite !TextFacts.append_assoc; cbn [String.append];
                           reflexivity]; simpl; auto 20 |]).
    contradiction.
  - apply (G "/state"); [simpl; auto 20 | reflexivity].
  - apply (G "/last_text"); [simpl; auto 20 | reflexivity].
Qed.

(** X17.  No echo.  A message on a topic that [publish_states] publishes
    on, whatever the stored states, is only printed by [on_message]: it
    changes no state, sends nothing and publishes nothing, so what the
    bridge publishes cannot set it off again. *)
Theorem published_topics_are_not_handled (mac : string) (cs : dict) (lt : pyval)
        (t : string) (p : mqtt_payload) (r : bool) (payload : string) (w : World) :
  In (t, p, r) (published (state_messages mac cs lt)) ->
  on_message mac t payload w
  = (Ok tt, with_event (Printed (MqttReceived t payload)) w).
Proof.
  intros H. apply published_topics in H. apply state_topics_uncovered in H.
  pose proof (on_message_by_cover mac t payload w) as C.
  rewrite H in C. exact C.
Qed.

Lemma published_topics_are_not_handled_witness :
  on_message example_mac (STATE_TOPIC example_mac) "{}" (initial up)
  = (Ok tt,
     with_event (Printed (MqttReceived (STATE_TOPIC example_mac) "{}")) (initial up)).
Proof.
  apply (published_topics_are_not_handled example_mac DEFAULTS (PStr EmptyString)
           (STATE_TOPIC example_mac) (Document DEFAULTS) true).
  unfold state_messages. rewrite published_app. apply in_app_iff. right.
  left. reflexivity.
Defined.

(* ===================================================================== *)
(** ** The command topic: what is acted on *)
(* ===================================================================== *)

Lemma sends_state_messages (mac : string) (cs : dict) (lt : pyval) :
  sends (state_messages mac cs lt) = [].
Proof. now rewrite sends_calls, state_messages_calls. Qed.

Lemma eq_str_eq (v : pyval) (s : string) : Py.eq_str v s = true -> v = PStr s.
Proof.
  destruct v; try discriminate. simpl. intros H. apply String.eqb_eq in H. now subst.
Qed.

Lemma sends_print (l : log) (w : World) :
  sends (trace (with_event (Printed l) w)) = sends (trace w).
Proof. cbn [with_event trace]. rewrite sends_app. cbn. now rewrite app_nil_r. Qed.

(** A payload that the chain does not act on. *)
Lemma dispatch_unacted (data : pyval) (w : World) :
  Dict.has "set" (current_states w) = false ->
  acted_on data = false ->
  post (dispatch "set" data) w
    (fun r w' =>
       r = Ok tt /\ current_states w' = current_states w /\
       last_text w' = last_text w /\
       calls_so_far w' = (calls_so_far w ++ [])%list /\
       published_so_far w' = published_so_far w).
Proof.
  intros Hs Ha. rewrite app_nil_r.
  assert (I : post (individual "set" data) w
                (fun r w' =>
                   r = Ok tt /\ current_states w' = current_states w /\
                   last_text w' = last_text w /\
                   calls_so_far w' = calls_so_far w /\
                   published_so_far w' = published_so_far w)).
  { unfold individual.
    change (String.eqb "set" "send_text") with false.
    change (String.eqb "set" "power") with false. cbv iota.
    unfold post, outcome, run, bind, get_states. rewrite Hs. cbn. auto. }
  destruct data as [| b | z | f | s | l | d];
    try (rewrite dispatch_individual by (right; intros d; discriminate); exact I).
  unfold dispatch. change (String.eqb "set" "set") with true. cbv iota.
  unfold acted_on in Ha. run_basic.
  destruct (Dict.get "command" d) as [cmd |] eqn:Ec;
    [destruct (Dict.get "params" d) as [params |] eqn:Ep |].
  - unfold structured. run_basic.
    apply orb_false_iff in Ha. destruct Ha as [Ha H3].
    apply orb_false_iff in Ha. destruct Ha as [H1 H2].
    rewrite H1, H2, H3. unfold post, outcome, run, ret. cbn [fst snd]. tidy.
    cbn [current_states last_text with_event]. auto.
  - unfold Dict.has in Ha. destruct (Dict.get "send_text" d); [discriminate |].
    unfold post, outcome, run, ret. cbn [fst snd]. tidy.
    cbn [current_states last_text with_event]. auto.
  - unfold Dict.has in Ha. destruct (Dict.get "send_text" d); [discriminate |].
    unfold post, outcome, run, ret. cbn [fst snd]. tidy.
    cbn [current_states last_text with_event]. auto.
Qed.

(** A payload that the chain acts on: [ws_send] is entered once, unless the
    chain raises before. *)
Lemma dispatch_acted (data : pyval) (w : World) :
  acted_on data = true ->
  post (dispatch "set" data) w
    (fun r w' =>
       match r with
       | Ok _ => exists p, sends (trace w') = (sends (trace w) ++ [p])%list
       | Raise _ => sends (trace w') = sends (trace w)
       end).
Proof.
  intros Ha. destruct data as [| b | z | f | s | l | d]; try discriminate.
  unfold acted_on in Ha.
  destruct (Dict.get "command" d) as [cmd |] eqn:Ec;
    [destruct (Dict.get "params" d) as [params |] eqn:Ep |].
  - unfold post, outcome, run. rewrite (dispatch_structured d cmd params w Ec Ep).
    set (w0 := with_event (Printed (MqttProcessing (PDict d))) w).
    assert (S0 : sends (trace w0) = sends (trace w)) by apply sends_print.
    rewrite <- S0. clearbody w0.
    destruct (Py.eq_str cmd "led_on") eqn:E1.
    { apply eq_str_eq in E1. subst cmd.
      pose proof (structured_led (PDict d) params "led_on" w0 (or_introl eq_refl)) as L.
      unfold post, outcome, run in L. destruct L as (-> & _ & Hc).
      eexists. apply (sends_from_calls _ _ _ Hc). }
    destruct (Py.eq_str cmd "led_off") eqn:E2.
    { apply eq_str_eq in E2. subst cmd.
      pose proof (structured_led (PDict d) params "led_off" w0 (or_intror eq_refl)) as L.
      unfold post, outcome, run in L. destruct L as (-> & _ & Hc).
      eexists. apply (sends_from_calls _ _ _ Hc). }
    cbn [orb] in Ha. apply andb_true_iff in Ha. destruct Ha as [E3 Ht].
    apply eq_str_eq in E3. subst cmd.
    assert (D : (exists t, Obj.first params = Ok (PStr t)) \/
                (forall t, Obj.first params <> Ok (PStr t))).
    { destruct (Obj.first params) as [[| ? | ? | ? | t | ? | ?] | e];
        try (right; intros t' C; discriminate C).
      left. now exists t. }
    destruct D as [[t Hf] | Hn].
    + pose proof (structured_send_text (PDict d) params t w0 Hf) as L.
      unfold post, outcome, run in L. destruct L as (-> & _ & _ & Hc & _).
      eexists. apply (sends_from_calls _ _ _ Hc).
    + destruct (structured_raises (PDict d) params w0 Ht Hn) as [e ->].
      cbn [fst snd]. apply sends_print.
  - unfold Dict.has in Ha.
    destruct (Dict.get "send_text" d) as [text |] eqn:Et; [| discriminate].
    unfold post, outcome, run.
    rewrite (dispatch_flat_eq d text w (or_intror Ep) Et).
    pose proof (flat_post d text (with_event (Printed (MqttProcessing (PDict d))) w)) as L.
    unfold post, outcome, run in L. destruct L as (-> & _ & _ & Hc & _).
    eexists. rewrite (sends_from_calls _ _ _ Hc), sends_print. reflexivity.
  - unfold Dict.has in Ha.
    destruct (Dict.get "send_text" d) as [text |] eqn:Et; [| discriminate].
    unfold post, outcome, run.
    rewrite (dispatch_flat_eq d text w (or_introl Ec) Et).
    pose proof (flat_post d text (with_event (Printed (MqttProcessing (PDict d))) w)) as L.
    unfold post, outcome, run in L. destruct L as (-> & _ & _ & Hc & _).
    eexists. rewrite (sends_from_calls _ _ _ Hc), sends_print. reflexivity.
Qed.



(* ===================================================================== *)
(** ** What is published *)
(* ===================================================================== *)

Lemma base_topic_nonempty (mac s : string) : Text.is_empty (BASE_TOPIC mac ++ s) = false.
Proof. reflexivity. Qed.

Lemma state_messages_topics (mac : string) (cs : dict) (lt : pyval) :
  List.map topic_of (published (state_messages mac cs lt))
  = (flat_map
       (fun k => match lookup k (TOPICS mac) with
                 | Some t => if Text.is_empty t then [] else [(t ++ "/state")%string]
                 | None => []
                 end) (Dict.keys cs)
     ++ [STATE_TOPIC mac; LAST_TEXT_TOPIC mac])%list.
Proof.
  unfold state_messages. rewrite published_app, map_app. f_equal.
  induction cs as [| kv r IH]; [reflexivity |].
  cbn [flat_map Dict.keys List.map]. rewrite published_app, map_app.
  fold (Dict.keys r). rewrite IH. f_equal.
  destruct (lookup (fst kv) (TOPICS mac)) as [t |]; [| reflexivity].
  now destruct (Text.is_empty t).
Qed.

Lemma state_messages_retained (mac : string) (cs : dict) (lt : pyval) :
  forallb retained (published (state_messages mac cs lt)) = true.
Proof.
  unfold state_messages. rewrite published_app, forallb_app. apply andb_true_iff.
  split; [| reflexivity].
  induction cs as [| kv r IH]; [reflexivity |].
  cbn [flat_map]. rewrite published_app, forallb_app, IH, andb_true_r.
  destruct (lookup (fst kv) (TOPICS mac)) as [t |]; [| reflexivity].
  now destruct (Text.is_empty t).
Qed.



Lemma iterate_publish (mac : string) (n : nat) (w : World) :
  iterate n (publish_states mac) w
  = (Ok tt,
     with_events
       (concat (repeat (state_messages mac (current_states w) (last_text w)) n)) w).
Proof.
  revert w. induction n as [| n IH]; intros w; cbn [iterate repeat concat].
  - unfold ret. now rewrite with_events_nil.
  - unfold bind. rewrite publish_states_eq, IH.
    cbn [with_events current_states last_text]. now rewrite with_events_app.
Qed.

Lemma published_concat (l : list event) (n : nat) :
  published (concat (repeat l n)) = concat (repeat (published l) n).
Proof.
  induction n as [| n IH]; [reflexivity |].
  cbn [repeat concat]. now rewrite published_app, IH.
Qed.


(* ===================================================================== *)
(** ** Setting an attribute *)
(* ===================================================================== *)


